(** * HistoryConsoleWidget: the readline-style history of the Qt console

    A shallow embedding of
    [IPython/frontend/qt/console/history_console_widget.py] and the
    properties of its history log, history index and edit overlay.

    Python integers are modelled as [Z], the history list as [list string],
    the dictionary [_history_edits] as a [gmap Z string], and an
    [IndexError] raised by a list access as the [Raise] outcome of a small
    error monad. *)

From Stdlib Require Import ZArith String Ascii Lia.
From stdpp Require Import gmap list fin_maps.

Local Open Scope Z_scope.
Local Open Scope string_scope.
Local Open Scope list_scope.

(** ** Python primitives used by the widget *)

Module Py.

(** The exceptions the widget's own code can raise. *)
Inductive exn : Type :=
| IndexError.

(** Outcome of a call: a value, or an exception that was raised. *)
Inductive result (A : Type) : Type :=
| Ok (a : A)
| Raise (e : exn).
Arguments Ok {A} a.
Arguments Raise {A} e.

Definition bind {A B : Type} (r : result A) (k : A -> result B) : result B :=
  match r with
  | Ok a => k a
  | Raise e => Raise e
  end.

(** [len(l)] *)
Definition len {A : Type} (l : list A) : Z := Z.of_nat (length l).

(** [l[i]] on a list: a negative index counts from the end, an index
    outside [-len(l), len(l)) raises [IndexError]. *)
Definition getitem {A : Type} (l : list A) (i : Z) : result A :=
  let j := if bool_decide (i < 0) then i + len l else i in
  if bool_decide (0 <= j < len l)
  then match l !! Z.to_nat j with
       | Some x => Ok x
       | None => Raise IndexError
       end
  else Raise IndexError.

(** [l[start:]]: a negative start counts from the end; the start is then
    clamped into [0, len(l)]. *)
Definition slice_from {A : Type} (l : list A) (start : Z) : list A :=
  let s := if bool_decide (start < 0)
           then Z.max (start + len l) 0
           else Z.min start (len l) in
  drop (Z.to_nat s) l.

(** The characters of [string.whitespace]: tab, line feed, vertical tab,
    form feed, carriage return and space. *)
Definition isspace (c : ascii) : bool :=
  let n := nat_of_ascii c in
  ((9 <=? n)%nat && (n <=? 13)%nat) || (n =? 32)%nat.

(** [s.rstrip()]: [s] without its trailing whitespace. *)
Fixpoint rstrip (s : string) : string :=
  match s with
  | EmptyString => EmptyString
  | String c s' =>
      match rstrip s' with
      | EmptyString => if isspace c then EmptyString else String c EmptyString
      | r => String c r
      end
  end.

(** [s.startswith(prefix)] *)
Definition startswith (s prefix : string) : bool := String.prefix prefix s.

(** [len(s)] on a string. *)
Definition str_len (s : string) : Z := Z.of_nat (String.length s).

(** [s[:stop]]: a negative stop counts from the end; the stop is then
    clamped into [0, len(s)]. *)
Definition str_slice_to (s : string) (stop : Z) : string :=
  let e := if bool_decide (stop < 0)
           then Z.max (stop + str_len s) 0
           else Z.min stop (str_len s) in
  substring 0 (Z.to_nat e) s.

End Py.

Import Py.

#[global] Instance result_ret : MRet result := @Ok.
#[global] Instance result_bind : MBind result := fun A B k r => bind r k.

(** ** The widget state *)

(** The protected variables set up by [__init__], together with the
    [input_buffer] property inherited from [ConsoleWidget]. *)
Record HistoryConsoleWidget : Type := {
  _history : list string;
  _history_edits : gmap Z string;
  _history_index : Z;
  _history_prefix : string;
  input_buffer : string
}.

(** Modelled from the spec: the [input_buffer] property of [ConsoleWidget]
    (module [console_widget]), of which the spec only says that the host
    widget exposes it for get and set.  Reading it is the field
    [input_buffer]; assigning to it replaces the field. *)
Definition set_input_buffer (source : string) (self : HistoryConsoleWidget)
  : HistoryConsoleWidget :=
  {| _history := _history self;
     _history_edits := _history_edits self;
     _history_index := _history_index self;
     _history_prefix := _history_prefix self;
     input_buffer := source |}.

Definition set_history (history : list string) (self : HistoryConsoleWidget)
  : HistoryConsoleWidget :=
  {| _history := history;
     _history_edits := _history_edits self;
     _history_index := _history_index self;
     _history_prefix := _history_prefix self;
     input_buffer := input_buffer self |}.

Definition set_history_edits (edits : gmap Z string) (self : HistoryConsoleWidget)
  : HistoryConsoleWidget :=
  {| _history := _history self;
     _history_edits := edits;
     _history_index := _history_index self;
     _history_prefix := _history_prefix self;
     input_buffer := input_buffer self |}.

Definition set_history_index (index : Z) (self : HistoryConsoleWidget)
  : HistoryConsoleWidget :=
  {| _history := _history self;
     _history_edits := _history_edits self;
     _history_index := index;
     _history_prefix := _history_prefix self;
     input_buffer := input_buffer self |}.

Definition set_history_prefix (prefix : string) (self : HistoryConsoleWidget)
  : HistoryConsoleWidget :=
  {| _history := _history self;
     _history_edits := _history_edits self;
     _history_index := _history_index self;
     _history_prefix := prefix;
     input_buffer := input_buffer self |}.

(** [__init__]: an empty history, no edits, index 0, empty prefix.  The
    input buffer of a fresh console is empty. *)
Definition __init__ : HistoryConsoleWidget :=
  {| _history := [];
     _history_edits := ∅;
     _history_index := 0;
     _history_prefix := "";
     input_buffer := "" |}.

(** ** 'ConsoleWidget' public interface *)

(** What the call [super(HistoryConsoleWidget, self).execute(source, hidden,
    interactive)] did: the flag it returned and the input buffer it left
    behind.  [ConsoleWidget] is not part of this file, so each call of
    [execute] receives the outcome of its superclass call as an argument. *)
Record super_execute : Type := {
  executed : bool;
  buffer_after : string
}.

(** [execute]: returns the new state and the returned flag.  The local
    [history] is bound only when [not hidden], and only read then. *)
Definition execute (self : HistoryConsoleWidget) (source : option string)
    (hidden interactive : bool) (super : super_execute)
  : HistoryConsoleWidget * bool :=
  let history := match source with
                 | None => input_buffer self
                 | Some s => s
                 end in
  let self := set_input_buffer (buffer_after super) self in
  if executed super && negb hidden then
    let history := rstrip history in
    let self :=
      if bool_decide (history ≠ "")
         && (bool_decide (_history self = [])
             || bool_decide (last (_history self) ≠ Some history))
      then set_history (_history self ++ [history]) self
      else self in
    let self := set_history_edits ∅ self in
    let self := set_history_index (len (_history self)) self in
    (self, executed super)
  else (self, executed super).

(** ** 'HistoryConsoleWidget' protected interface *)

(** [_get_edited_history]: the effective text at [index], the temporary
    edit when there is one, the history item otherwise. *)
Definition _get_edited_history (self : HistoryConsoleWidget) (index : Z)
  : result string :=
  match _history_edits self !! index with
  | Some edit => Ok edit
  | None => getitem (_history self) index
  end.

(** [_set_edited_input_buffer]: saves the input buffer as a temporary edit
    under the current history index, then shows [source]. *)
Definition _set_edited_input_buffer (self : HistoryConsoleWidget) (source : string)
  : HistoryConsoleWidget :=
  let self :=
    set_history_edits (<[_history_index self := input_buffer self]> (_history_edits self))
                      self in
  set_input_buffer source self.

(** [_set_history]: replaces the history with a copy of [history]. *)
Definition _set_history (self : HistoryConsoleWidget) (history : list string)
  : HistoryConsoleWidget :=
  let self := set_history history self in
  let self := set_history_edits ∅ self in
  set_history_index (len (_history self)) self.

(** ** 'HistoryConsoleWidget' public interface *)

(** The statements after either search loop:
    [if history is not None: self._set_edited_input_buffer(history);
    self._history_index = index]. *)
Definition show_found (self : HistoryConsoleWidget) (found : option (Z * string))
  : HistoryConsoleWidget :=
  match found with
  | None => self
  | Some (index, history) =>
      set_history_index index (_set_edited_input_buffer self history)
  end.

(** The loop of [history_previous], [while index > 0: index -= 1; ...],
    by recursion on the index it counts down.  The result is the pair
    [(index, history)] at a [break], and [None] for the [else] branch. *)
Fixpoint history_previous_loop (self : HistoryConsoleWidget) (prefix : string)
    (index : nat) : result (option (Z * string)) :=
  match index with
  | O => Ok None
  | S index' =>
      history ← _get_edited_history self (Z.of_nat index');
      if startswith history prefix
      then Ok (Some (Z.of_nat index', history))
      else history_previous_loop self prefix index'
  end.

Definition history_previous (self : HistoryConsoleWidget) (prefix : string)
  : result HistoryConsoleWidget :=
  found ← history_previous_loop self prefix (Z.to_nat (_history_index self));
  Ok (show_found self found).

(** The loop of [history_next].  Its condition
    [self._history_index < len(self._history)] does not mention the local
    [index], so the loop has no syntactic bound: [fuel] counts the
    evaluations of the condition that are still allowed, and [None] means
    that they were used up. *)
Fixpoint history_next_loop (fuel : nat) (self : HistoryConsoleWidget)
    (prefix : string) (index : Z) : option (result (option (Z * string))) :=
  match fuel with
  | O => None
  | S fuel' =>
      if bool_decide (_history_index self < len (_history self)) then
        let index := index + 1 in
        match _get_edited_history self index with
        | Raise e => Some (Raise e)
        | Ok history =>
            if startswith history prefix
            then Some (Ok (Some (index, history)))
            else history_next_loop fuel' self prefix index
        end
      else Some (Ok None)
  end.

Definition history_next (fuel : nat) (self : HistoryConsoleWidget) (prefix : string)
  : option (result HistoryConsoleWidget) :=
  match history_next_loop fuel self prefix (_history_index self) with
  | None => None
  | Some r => Some (found ← r; Ok (show_found self found))
  end.

(** [history_tail]: [self._history[-n:]]. *)
Definition history_tail (self : HistoryConsoleWidget) (n : Z) : list string :=
  slice_from (_history self) (- n).

(** ** 'ConsoleWidget' abstract interface *)

(** [_up_pressed].  The text cursor belongs to [ConsoleWidget], which is not
    part of this file: what the handler reads from it comes in as arguments,
    [on_prompt_line] for the test
    [self._get_cursor().blockNumber() == prompt_cursor.blockNumber()] and
    [col] for [self._get_input_buffer_cursor_column()]; the cursor it sets at
    the end is no part of the state here.  The result is the new state and
    the returned flag, whether to continue processing the event. *)
Definition _up_pressed (self : HistoryConsoleWidget) (on_prompt_line : bool) (col : Z)
  : result (HistoryConsoleWidget * bool) :=
  if on_prompt_line then
    let input_buffer := input_buffer self in
    let self :=
      if bool_decide (_history_index self = len (_history self))
         || (bool_decide (_history_prefix self ≠ "")
             && bool_decide (col ≠ str_len (_history_prefix self)))
      then
        let self := set_history_index (len (_history self)) self in
        set_history_prefix (str_slice_to input_buffer col) self
      else self in
    self ← history_previous self (_history_prefix self);
    Ok (self, false)
  else Ok (self, true).

(** [_down_pressed], with [on_end_line] for the test
    [self._get_cursor().blockNumber() == end_cursor.blockNumber()] and the
    fuel of [history_next]. *)
Definition _down_pressed (fuel : nat) (self : HistoryConsoleWidget) (on_end_line : bool)
  : option (result (HistoryConsoleWidget * bool)) :=
  if on_end_line then
    match history_next fuel self (_history_prefix self) with
    | None => None
    | Some r => Some (self ← r; Ok (self, false))
    end
  else Some (Ok (self, true)).

(** ** The spec's vocabulary *)

(** The effective text at [index] in the spec's words: the overlay entry
    if present, else the log entry.  To be compared with
    [_get_edited_history]. *)
Definition effective_text (self : HistoryConsoleWidget) (index : Z) : option string :=
  match _history_edits self !! index with
  | Some edit => Some edit
  | None => if bool_decide (0 <= index) then _history self !! Z.to_nat index else None
  end.

(** A navigation call succeeded when it moved the history index. *)
Definition moved (self self' : HistoryConsoleWidget) : Prop :=
  _history_index self' ≠ _history_index self.

(** The log never holds an empty string nor two adjacent equal entries. *)
Definition log_clean (log : list string) : Prop :=
  ("" ∉ log) ∧
  (∀ (i : nat) (x y : string), log !! i = Some x → log !! S i = Some y → x ≠ y).

(** The invariant of the states the widget can be in: the index is in
    [0, N], every overlay key is in [0, N], and while browsing (index
    below N) the live line is saved under key N. *)
Record history_inv (self : HistoryConsoleWidget) : Prop := {
  inv_index : 0 <= _history_index self <= len (_history self);
  inv_keys : map_Forall (fun k _ => 0 <= k <= len (_history self)) (_history_edits self);
  inv_live : _history_index self < len (_history self) →
             is_Some (_history_edits self !! len (_history self))
}.

(** ** Calls and reachable states *)

Inductive call : Type :=
| Execute (source : option string) (hidden interactive : bool) (super : super_execute)
| HistoryPrevious (prefix : string)
| HistoryNext (prefix : string)
| SetHistory (history : list string)
| Typing (text : string).

(** One call that returns.  A call that raises makes no step: the
    exception leaves the widget as it was.  [Typing] is the user changing
    the input buffer between two calls. *)
Inductive step : HistoryConsoleWidget → call → HistoryConsoleWidget → Prop :=
| step_execute self source hidden interactive super :
    step self (Execute source hidden interactive super)
         (execute self source hidden interactive super).1
| step_previous self prefix self' :
    history_previous self prefix = Ok self' →
    step self (HistoryPrevious prefix) self'
| step_next fuel self prefix self' :
    history_next fuel self prefix = Some (Ok self') →
    step self (HistoryNext prefix) self'
| step_set_history self history :
    step self (SetHistory history) (_set_history self history)
| step_typing self text :
    step self (Typing text) (set_input_buffer text self).

Inductive steps : HistoryConsoleWidget → list call → HistoryConsoleWidget → Prop :=
| steps_nil self : steps self [] self
| steps_cons self c self' cs self'' :
    step self c self' → steps self' cs self'' → steps self (c :: cs) self''.

Definition reachable (self : HistoryConsoleWidget) : Prop :=
  ∃ cs, steps __init__ cs self.

(** A run of [execute] calls, each with its arguments and the outcome of
    its superclass call. *)
Definition execute_all (self : HistoryConsoleWidget)
    (calls : list (option string * bool * bool * super_execute))
  : HistoryConsoleWidget :=
  foldl (fun self '(source, hidden, interactive, super) =>
           (execute self source hidden interactive super).1) self calls.

(** What the user and the host can do to a console: execute a line, press
    the up or the down key, load a history, type into the input buffer. *)
Inductive key_step : HistoryConsoleWidget → HistoryConsoleWidget → Prop :=
| key_execute self source hidden interactive super :
    key_step self (execute self source hidden interactive super).1
| key_up self on_prompt_line col self' ret :
    _up_pressed self on_prompt_line col = Ok (self', ret) →
    key_step self self'
| key_down fuel self on_end_line self' ret :
    _down_pressed fuel self on_end_line = Some (Ok (self', ret)) →
    key_step self self'
| key_set_history self history :
    key_step self (_set_history self history)
| key_typing self text :
    key_step self (set_input_buffer text self).

Definition key_reachable (self : HistoryConsoleWidget) : Prop :=
  rtc key_step __init__ self.

(** The invariant of the states reached with the keys: the invariant of
    the history, and while browsing the live line saved under key N starts
    with the search prefix. *)
Record key_inv (self : HistoryConsoleWidget) : Prop := {
  key_history : history_inv self;
  key_live : _history_index self < len (_history self) →
             ∃ B, _history_edits self !! len (_history self) = Some B
                  ∧ startswith B (_history_prefix self) = true
}.

(** [n] presses of the down key on the last line of the input, each of
    them returning. *)
Inductive down_presses : nat → HistoryConsoleWidget → HistoryConsoleWidget → Prop :=
| down_presses_O self : down_presses 0 self self
| down_presses_S fuel n self self1 self2 :
    _down_pressed fuel self true = Some (Ok (self1, false)) →
    down_presses n self1 self2 →
    down_presses (S n) self self2.

(** The candidate line of an [execute] call after [rstrip]: the source
    when one is given, else the input buffer. *)
Definition candidate (self : HistoryConsoleWidget) (source : option string) : string :=
  rstrip (match source with None => input_buffer self | Some s => s end).

(** A bound on every index whose lookup can succeed: the log length and
    the overlay keys are at most [scan_bound]. *)
Definition scan_bound (self : HistoryConsoleWidget) : Z :=
  map_fold (fun k _ b => Z.max k b) (len (_history self)) (_history_edits self).

(** ** Example states *)

(** The log of the spec's scenarios. *)
Definition scenario_log : list string := ["ls"; "cd /tmp"; "ls -la"].

(** A console loaded with that log: index 3 (the live line), no edits,
    empty input buffer. *)
Definition at_live_line : HistoryConsoleWidget := _set_history __init__ scenario_log.

(** The same console after [history_previous("ls")]: index 2, showing
    "ls -la", with the empty live line saved under key 3. *)
Definition browsing : HistoryConsoleWidget :=
  {| _history := scenario_log;
     _history_edits := {[ 3 := "" ]};
     _history_index := 2;
     _history_prefix := "";
     input_buffer := "ls -la" |}.

(** And after a forward step with the empty prefix: back on the live
    line, with "ls -la" saved under key 2. *)
Definition back_at_live_line : HistoryConsoleWidget :=
  {| _history := scenario_log;
     _history_edits := <[ 2 := "ls -la" ]> {[ 3 := "" ]};
     _history_index := 3;
     _history_prefix := "";
     input_buffer := "" |}.

(** The superclass executed the line and left an empty input buffer. *)
Definition ran : super_execute := {| executed := true; buffer_after := "" |}.

Ltac unfold_bind := unfold mbind, result_bind, bind in *.

(** ** Python primitives *)

Section PyFacts.
Context {A : Type}.
Implicit Types (l : list A) (i : Z).

Lemma len_nonneg l : 0 <= len l.
Proof. unfold len. lia. Qed.

Lemma len_app l1 l2 : len (l1 ++ l2) = len l1 + len l2.
Proof. unfold len. rewrite length_app. lia. Qed.

Lemma getitem_Ok_range l i x : getitem l i = Ok x → - len l <= i < len l.
Proof.
  unfold getitem. repeat case_bool_decide; try discriminate; lia.
Qed.

Lemma getitem_nonneg l i :
  0 <= i →
  getitem l i = match l !! Z.to_nat i with Some x => Ok x | None => Raise IndexError end.
Proof.
  intros Hi. unfold getitem.
  rewrite (bool_decide_eq_false_2 (i < 0)) by lia.
  case_bool_decide as Hr; [done|].
  rewrite lookup_ge_None_2; [done|]. unfold len in Hr. lia.
Qed.

Lemma getitem_in_range l i :
  0 <= i < len l → ∃ x, getitem l i = Ok x ∧ l !! Z.to_nat i = Some x.
Proof.
  intros Hi. rewrite getitem_nonneg by lia.
  destruct (lookup_lt_is_Some_2 l (Z.to_nat i)) as [x Hx].
  { unfold len in Hi. lia. }
  exists x. by rewrite Hx.
Qed.

Lemma getitem_past_end l i : len l <= i → getitem l i = Raise IndexError.
Proof.
  intros Hi. destruct (getitem l i) as [x|[]] eqn:E; [|done].
  apply getitem_Ok_range in E. lia.
Qed.

Lemma slice_from_suffix l start : slice_from l start `suffix_of` l.
Proof. apply suffix_drop. Qed.

Lemma slice_from_zero l : slice_from l 0 = l.
Proof.
  unfold slice_from. rewrite (bool_decide_eq_false_2 (0 < 0)) by lia.
  pose proof (len_nonneg l). by rewrite Z.min_l.
Qed.

Lemma slice_from_neg_length l n :
  0 < n → Z.of_nat (length (slice_from l (- n))) = Z.min n (len l).
Proof.
  intros Hn. unfold slice_from. rewrite (bool_decide_eq_true_2 (- n < 0)) by lia.
  rewrite length_drop. unfold len. lia.
Qed.
End PyFacts.

Lemma startswith_empty s : startswith s "" = true.
Proof. unfold startswith. by destruct s. Qed.

(** ** Effective text *)

Section EffectiveText.
Implicit Types (self : HistoryConsoleWidget) (index : Z) (h : string).

(** On the indices a scan visits from a state with a non-negative index,
    the code's lookup and the spec's effective text agree. *)
Lemma get_edited_effective self index h :
  0 <= index →
  _get_edited_history self index = Ok h ↔ effective_text self index = Some h.
Proof.
  intros Hi. unfold _get_edited_history, effective_text.
  destruct (_history_edits self !! index) as [edit|].
  - split; intros [= ->]; done.
  - rewrite getitem_nonneg, bool_decide_eq_true_2 by done.
    destruct (_history self !! Z.to_nat index); split; intros [=]; by subst.
Qed.

Lemma get_edited_in_log self index :
  0 <= index < len (_history self) → ∃ h, _get_edited_history self index = Ok h.
Proof.
  intros Hi. unfold _get_edited_history.
  destruct (_history_edits self !! index) as [edit|]; [by eexists|].
  destruct (getitem_in_range (_history self) index Hi) as (x & -> & _). by eexists.
Qed.

Lemma get_edited_Ok_bound self index h (B : Z) :
  map_Forall (fun k _ => k <= B) (_history_edits self) →
  len (_history self) <= B + 1 →
  _get_edited_history self index = Ok h → index <= B.
Proof.
  intros Hkeys Hlen. unfold _get_edited_history.
  destruct (_history_edits self !! index) as [edit|] eqn:E.
  - intros _. by apply (Hkeys _ _ E).
  - intros Hget%getitem_Ok_range. lia.
Qed.

Lemma get_edited_saved self index h :
  _history_edits self !! index = Some h → _get_edited_history self index = Ok h.
Proof. unfold _get_edited_history. by intros ->. Qed.
End EffectiveText.

(** ** The backward scan *)

Section Backward.
Implicit Types (self : HistoryConsoleWidget) (prefix h : string) (n : nat).

(** A [break] happens at the first index below the start, counting down,
    whose effective text starts with the prefix. *)
Lemma history_previous_loop_found self prefix n j h :
  history_previous_loop self prefix n = Ok (Some (j, h)) →
  0 <= j < Z.of_nat n
  ∧ _get_edited_history self j = Ok h
  ∧ startswith h prefix = true
  ∧ ∀ i, j < i < Z.of_nat n →
         ∃ h', _get_edited_history self i = Ok h' ∧ startswith h' prefix = false.
Proof.
  induction n as [|n IH]; simpl; [done|]. unfold_bind.
  destruct (_get_edited_history self (Z.of_nat n)) as [h'|e] eqn:Hget; [|done].
  destruct (startswith h' prefix) eqn:Hpre.
  - intros [= <- <-]. split_and!; [lia|lia|done|done|].
    intros i Hi. lia.
  - intros (Hj & Hgj & Hpj & Hbetween)%IH. repeat split; try done; try lia.
    intros i Hi. destruct (decide (i = Z.of_nat n)) as [->|Hne].
    + by exists h'.
    + apply Hbetween. lia.
Qed.

(** The [else] branch is taken when no index below the start matches. *)
Lemma history_previous_loop_none self prefix n :
  history_previous_loop self prefix n = Ok None →
  ∀ i, 0 <= i < Z.of_nat n →
       ∃ h', _get_edited_history self i = Ok h' ∧ startswith h' prefix = false.
Proof.
  induction n as [|n IH]; simpl; [intros _ i Hi; lia|]. unfold_bind.
  destruct (_get_edited_history self (Z.of_nat n)) as [h'|e] eqn:Hget; [|done].
  destruct (startswith h' prefix) eqn:Hpre; [done|].
  intros Hnone i Hi. destruct (decide (i = Z.of_nat n)) as [->|Hne].
  - by exists h'.
  - apply IH; [done|lia].
Qed.

(** Started at or below N, the backward scan reads only log slots that
    exist, so it does not raise. *)
Lemma history_previous_loop_in_bounds self prefix n :
  Z.of_nat n <= len (_history self) →
  ∃ found, history_previous_loop self prefix n = Ok found.
Proof.
  induction n as [|n IH]; simpl; [by eexists|]. intros Hn. unfold_bind.
  destruct (get_edited_in_log self (Z.of_nat n)) as [h ->]; [lia|].
  destruct (startswith h prefix); [by eexists|]. apply IH. lia.
Qed.

Lemma history_previous_in_bounds self prefix :
  _history_index self <= len (_history self) →
  ∃ self', history_previous self prefix = Ok self'.
Proof.
  intros Hi. unfold history_previous.
  destruct (history_previous_loop_in_bounds self prefix (Z.to_nat (_history_index self)))
    as [found ->]; [pose proof (len_nonneg (_history self)); lia|].
  by eexists.
Qed.

(** What a returning [history_previous] did: nothing when no index below
    matched, else the move to the first match. *)
Lemma history_previous_Ok self prefix self' :
  history_previous self prefix = Ok self' →
  (self' = self
   ∧ ∀ i, 0 <= i < _history_index self →
          ∃ h', _get_edited_history self i = Ok h' ∧ startswith h' prefix = false)
  ∨ (∃ j h,
       self' = set_history_index j (_set_edited_input_buffer self h)
       ∧ 0 <= j < _history_index self
       ∧ _get_edited_history self j = Ok h
       ∧ startswith h prefix = true
       ∧ ∀ i, j < i < _history_index self →
              ∃ h', _get_edited_history self i = Ok h' ∧ startswith h' prefix = false).
Proof.
  unfold history_previous. unfold_bind.
  destruct (history_previous_loop self prefix (Z.to_nat (_history_index self)))
    as [[[j h]|]|e] eqn:Hloop; [| |done]; intros [= <-].
  - right. exists j, h. apply history_previous_loop_found in Hloop.
    destruct Hloop as (Hj & Hget & Hpre & Hbetween).
    repeat split; try done; try lia. intros i Hi. apply Hbetween. lia.
  - left. split; [done|]. intros i Hi.
    apply (history_previous_loop_none _ _ _ Hloop). lia.
Qed.
End Backward.

(** ** The forward scan *)

Section Forward.
Implicit Types (self : HistoryConsoleWidget) (prefix h : string) (fuel : nat).
Implicit Types (index : Z).

(** More fuel does not change a result. *)
Lemma history_next_loop_mono fuel fuel' self prefix index r :
  history_next_loop fuel self prefix index = Some r →
  (fuel <= fuel')%nat →
  history_next_loop fuel' self prefix index = Some r.
Proof.
  revert fuel' index. induction fuel as [|fuel IH]; [done|].
  intros [|fuel'] index; [lia|]. simpl.
  case_bool_decide; [|done].
  destruct (_get_edited_history self (index + 1)) as [h|e]; [|done].
  destruct (startswith h prefix); [done|].
  intros Hloop Hle. apply IH; [done|lia].
Qed.

(** At the live line the loop body never runs. *)
Lemma history_next_loop_at_end fuel self prefix index :
  len (_history self) <= _history_index self →
  history_next_loop (S fuel) self prefix index = Some (Ok None).
Proof. intros Hi. simpl. by rewrite bool_decide_eq_false_2 by lia. Qed.

Lemma history_next_loop_none fuel self prefix index :
  history_next_loop fuel self prefix index = Some (Ok None) →
  len (_history self) <= _history_index self.
Proof.
  revert index. induction fuel as [|fuel IH]; [done|]. intros index. simpl.
  case_bool_decide; [|lia].
  destruct (_get_edited_history self (index + 1)) as [h|e]; [|done].
  destruct (startswith h prefix); [done|]. apply IH.
Qed.

(** A [break] happens at the first index above the start whose effective
    text starts with the prefix, after as many iterations as indices
    were visited. *)
Lemma history_next_loop_found fuel self prefix index j h :
  history_next_loop fuel self prefix index = Some (Ok (Some (j, h))) →
  _history_index self < len (_history self)
  ∧ index < j
  ∧ (Z.to_nat (j - index) <= fuel)%nat
  ∧ _get_edited_history self j = Ok h
  ∧ startswith h prefix = true
  ∧ ∀ i, index < i < j →
         ∃ h', _get_edited_history self i = Ok h' ∧ startswith h' prefix = false.
Proof.
  revert index. induction fuel as [|fuel IH]; [done|]. intros index. simpl.
  case_bool_decide as Hcond; [|done].
  destruct (_get_edited_history self (index + 1)) as [h'|e] eqn:Hget; [|done].
  destruct (startswith h' prefix) eqn:Hpre.
  - intros [= <- <-]. split_and!; [done|lia|lia|done|done|].
    intros i Hi. lia.
  - intros (_ & Hj & Hfuel & Hgj & Hpj & Hbetween)%IH.
    split_and!; [done|lia|lia|done|done|].
    intros i Hi. destruct (decide (i = index + 1)) as [->|Hne].
    + by exists h'.
    + apply Hbetween. lia.
Qed.

(** The loop raises exactly when a lookup does, every index before it
    having been read without a match. *)
Lemma history_next_loop_raise fuel self prefix index e :
  history_next_loop fuel self prefix index = Some (Raise e) →
  _history_index self < len (_history self)
  ∧ ∃ j, index < j
         ∧ _get_edited_history self j = Raise e
         ∧ ∀ i, index < i < j →
                ∃ h', _get_edited_history self i = Ok h' ∧ startswith h' prefix = false.
Proof.
  revert index. induction fuel as [|fuel IH]; [done|]. intros index. simpl.
  case_bool_decide as Hcond; [|done].
  destruct (_get_edited_history self (index + 1)) as [h'|e'] eqn:Hget.
  - destruct (startswith h' prefix) eqn:Hpre; [done|].
    intros (_ & j & Hj & Hgj & Hbetween)%IH. split; [done|].
    exists j. split_and!; [lia|done|].
    intros i Hi. destruct (decide (i = index + 1)) as [->|Hne].
    + by exists h'.
    + apply Hbetween. lia.
  - intros [= <-]. split; [done|]. exists (index + 1).
    split_and!; [lia|done|]. intros i Hi. lia.
Qed.

(** When some index above the start matches and every index up to it can
    be read, the loop breaks at or before it, within the fuel of the
    distance. *)
Lemma history_next_loop_reaches self prefix index j :
  _history_index self < len (_history self) →
  index < j →
  (∀ i, index < i <= j → ∃ h, _get_edited_history self i = Ok h) →
  (∃ h, _get_edited_history self j = Ok h ∧ startswith h prefix = true) →
  ∃ j' h', index < j' <= j
           ∧ history_next_loop (Z.to_nat (j - index)) self prefix index
             = Some (Ok (Some (j', h'))).
Proof.
  intros Hcond Hj Hread (h & Hgj & Hpj).
  remember (Z.to_nat (j - index)) as fuel eqn:Hfuel.
  revert index Hj Hread Hfuel. induction fuel as [|fuel IH]; intros index Hj Hread Hfuel.
  { lia. }
  simpl. rewrite bool_decide_eq_true_2 by done.
  destruct (Hread (index + 1)) as [h' Hget]; [lia|]. rewrite Hget.
  destruct (startswith h' prefix) eqn:Hpre.
  - exists (index + 1), h'. split; [lia|done].
  - destruct (decide (j = index + 1)) as [->|Hne]; [congruence|].
    destruct (IH (index + 1)) as (j' & h'' & Hj' & Hloop); [lia| |lia|].
    + intros i Hi. apply Hread. lia.
    + exists j', h''. split; [lia|done].
Qed.

(** With every overlay key and the log length at most [B], the loop ends
    within [B + 1 - index] evaluations of its condition: it visits no
    index above [B + 1]. *)
Lemma history_next_loop_bounded fuel self prefix index (B : Z) :
  map_Forall (fun k _ => k <= B) (_history_edits self) →
  len (_history self) <= B + 1 →
  (1 <= fuel)%nat →
  (Z.to_nat (B + 1 - index) <= fuel)%nat →
  is_Some (history_next_loop fuel self prefix index).
Proof.
  intros Hkeys Hlen. revert index. induction fuel as [|fuel IH]; [lia|].
  intros index _ Hfuel. simpl.
  case_bool_decide as Hcond; [|by eexists].
  destruct (_get_edited_history self (index + 1)) as [h|e] eqn:Hget; [|by eexists].
  destruct (startswith h prefix); [by eexists|].
  apply (get_edited_Ok_bound _ _ _ B) in Hget; [|done..].
  apply IH; lia.
Qed.

Lemma scan_bound_spec self :
  map_Forall (fun k _ => k <= scan_bound self) (_history_edits self)
  ∧ len (_history self) <= scan_bound self.
Proof.
  unfold scan_bound.
  apply (map_fold_weak_ind
           (fun b m => map_Forall (fun k _ => k <= b) m ∧ len (_history self) <= b)).
  - split; [apply map_Forall_empty|lia].
  - intros k x m b _ [Hm Hb]. split; [|lia].
    apply map_Forall_insert_2; [lia|].
    eapply map_Forall_impl; [done|]. simpl. intros. lia.
Qed.

(** The forward scan ends in every state: a lookup above every overlay
    key and above the log raises. *)
Lemma history_next_loop_terminates self prefix index :
  is_Some (history_next_loop (S (Z.to_nat (scan_bound self + 1 - index)))
                             self prefix index).
Proof.
  destruct (scan_bound_spec self) as [Hkeys Hlen].
  apply (history_next_loop_bounded _ _ _ _ (scan_bound self)); [done|lia..].
Qed.

Lemma history_next_mono fuel fuel' self prefix r :
  history_next fuel self prefix = Some r →
  (fuel <= fuel')%nat →
  history_next fuel' self prefix = Some r.
Proof.
  unfold history_next.
  destruct (history_next_loop fuel self prefix (_history_index self)) as [r'|] eqn:Hloop;
    [|done].
  intros [= <-] Hle. by rewrite (history_next_loop_mono _ _ _ _ _ _ Hloop Hle).
Qed.

Lemma history_next_at_end fuel self prefix :
  len (_history self) <= _history_index self →
  history_next (S fuel) self prefix = Some (Ok self).
Proof.
  intros Hi. unfold history_next. by rewrite history_next_loop_at_end.
Qed.

(** What a returning [history_next] did: nothing when it started at the
    live line, else the move to the first match. *)
Lemma history_next_Ok fuel self prefix self' :
  history_next fuel self prefix = Some (Ok self') →
  (self' = self ∧ len (_history self) <= _history_index self)
  ∨ (∃ j h,
       self' = set_history_index j (_set_edited_input_buffer self h)
       ∧ _history_index self < len (_history self)
       ∧ _history_index self < j
       ∧ _get_edited_history self j = Ok h
       ∧ startswith h prefix = true
       ∧ ∀ i, _history_index self < i < j →
              ∃ h', _get_edited_history self i = Ok h' ∧ startswith h' prefix = false).
Proof.
  unfold history_next. unfold_bind.
  destruct (history_next_loop fuel self prefix (_history_index self))
    as [[[[j h]|]|e]|] eqn:Hloop; [| |done|done]; intros [= <-].
  - right. exists j, h. apply history_next_loop_found in Hloop.
    destruct Hloop as (Hcond & Hj & _ & Hget & Hpre & Hbetween). done.
  - left. split; [done|]. by apply history_next_loop_none in Hloop.
Qed.
End Forward.

(** ** [execute] *)

Section Execute.
Implicit Types (self : HistoryConsoleWidget) (source : option string).
Implicit Types (hidden interactive : bool) (super : super_execute).

(** The paths through [execute]. *)
Lemma execute_cases self source hidden interactive super :
  let r := execute self source hidden interactive super in
  r.2 = executed super
  ∧ ((executed super && negb hidden = false
      ∧ r.1 = set_input_buffer (buffer_after super) self)
     ∨ (executed super && negb hidden = true
        ∧ _history_edits r.1 = ∅
        ∧ _history_index r.1 = len (_history r.1)
        ∧ ((candidate self source ≠ ""
            ∧ last (_history self) ≠ Some (candidate self source)
            ∧ _history r.1 = _history self ++ [candidate self source])
           ∨ ((candidate self source = ""
               ∨ last (_history self) = Some (candidate self source))
              ∧ _history r.1 = _history self)))).
Proof.
  unfold execute, candidate. cbv zeta.
  set (h := rstrip _).
  destruct (executed super && negb hidden) eqn:Hrun; simpl; [|by split; [|left]].
  split; [done|]. right. split; [done|]. split; [done|]. split; [done|].
  destruct (decide (h = "")) as [Hh|Hh].
  { rewrite (bool_decide_eq_false_2 (h ≠ "")) by (by intros []). simpl. by right; split; [left|]. }
  rewrite (bool_decide_eq_true_2 (h ≠ "")) by done. simpl.
  destruct (decide (last (_history self) = Some h)) as [Hlast|Hlast].
  - rewrite (bool_decide_eq_false_2 (_history self = [])) by (by intros E; rewrite E in Hlast).
    rewrite (bool_decide_eq_false_2 (last (_history self) ≠ Some h)) by (by intros []).
    simpl. by right; split; [right|].
  - rewrite (bool_decide_eq_true_2 (last (_history self) ≠ Some h)) by done.
    rewrite orb_true_r. simpl. by left.
Qed.

(** Appending a non-empty line that differs from the last entry keeps
    the log clean. *)
Lemma log_clean_snoc (log : list string) (h : string) :
  log_clean log → h ≠ "" → last log ≠ Some h → log_clean (log ++ [h]).
Proof.
  intros [Hempty Hadj] Hh Hlast. split.
  - rewrite elem_of_app, list_elem_of_singleton. intros [?|?]; [done|congruence].
  - intros i x y Hx Hy.
    apply lookup_app_Some in Hy as [Hy|[Hle Hy]].
    + apply lookup_app_Some in Hx as [Hx|[Hle' _]]; [by eapply Hadj|].
      apply lookup_lt_Some in Hy. lia.
    + apply list_lookup_singleton_Some in Hy as [Hi <-].
      apply lookup_app_Some in Hx as [Hx|[Hle' _]]; [|lia].
      rewrite last_lookup in Hlast.
      replace (pred (length log)) with i in Hlast by lia. congruence.
Qed.

Lemma execute_log_clean self source hidden interactive super :
  log_clean (_history self) →
  log_clean (_history (execute self source hidden interactive super).1).
Proof.
  intros Hclean.
  destruct (execute_cases self source hidden interactive super)
    as (_ & [[_ ->]|(_ & _ & _ & [(Hne & Hlast & ->)|[_ ->]])]); try done.
  by apply log_clean_snoc.
Qed.

Lemma execute_all_log_clean self calls :
  log_clean (_history self) → log_clean (_history (execute_all self calls)).
Proof.
  revert self. induction calls as [|[[[source hidden] interactive] super] calls IH];
    intros self Hclean; [done|].
  apply IH. by apply execute_log_clean.
Qed.
End Execute.

(** ** The invariant of reachable states *)

Section Invariant.
Implicit Types (self : HistoryConsoleWidget) (prefix : string).

Lemma history_inv_init : history_inv __init__.
Proof.
  split; simpl; [done|apply map_Forall_empty|unfold len; simpl; lia].
Qed.

(** After a reset of the overlay with the index at N the invariant holds
    whatever the log is. *)
Lemma history_inv_fresh self :
  _history_edits self = ∅ → _history_index self = len (_history self) →
  history_inv self.
Proof.
  intros Hedits Hindex. pose proof (len_nonneg (_history self)).
  split; [lia| |lia]. rewrite Hedits. apply map_Forall_empty.
Qed.

(** A move to [j] in [0, N] that saves the buffer under the old index
    keeps the invariant. *)
Lemma history_inv_move self j h :
  history_inv self → 0 <= j <= len (_history self) → j ≠ _history_index self →
  history_inv (set_history_index j (_set_edited_input_buffer self h)).
Proof.
  intros [Hindex Hkeys Hlive] Hj Hne. split; simpl.
  - done.
  - by apply map_Forall_insert_2.
  - intros Hlt. destruct (decide (_history_index self = len (_history self))) as [->|Hn].
    + rewrite lookup_insert_eq. by eexists.
    + rewrite lookup_insert_ne by done. apply Hlive. lia.
Qed.

Lemma step_inv self c self' : step self c self' → history_inv self → history_inv self'.
Proof.
  intros Hstep Hinv. destruct Hstep as
    [self source hidden interactive super | self prefix self' Hprev
    | fuel self prefix self' Hnext | self history | self text].
  - destruct (execute_cases self source hidden interactive super)
      as (_ & [[_ ->]|(_ & Hedits & Hindex & _)]).
    + by destruct Hinv.
    + by apply history_inv_fresh.
  - apply history_previous_Ok in Hprev
      as [[-> _]|(j & h & -> & Hj & _)]; [done|].
    destruct Hinv as [Hindex ? ?]. apply history_inv_move; [done|lia|lia].
  - apply history_next_Ok in Hnext
      as [[-> _]|(j & h & -> & Hcond & Hj & Hget & _)]; [done|].
    assert (j <= len (_history self)).
    { apply (get_edited_Ok_bound self j h); [|lia|done].
      eapply map_Forall_impl; [apply Hinv|]. simpl. intros. lia. }
    destruct Hinv as [Hindex ? ?]. apply history_inv_move; [done|lia|lia].
  - by apply history_inv_fresh.
  - by destruct Hinv.
Qed.

Lemma steps_inv self cs self' : steps self cs self' → history_inv self → history_inv self'.
Proof. induction 1; eauto using step_inv. Qed.

Lemma reachable_inv self : reachable self → history_inv self.
Proof. intros [cs Hsteps]. eapply steps_inv; [done|apply history_inv_init]. Qed.

Lemma steps_app self cs1 self' cs2 self'' :
  steps self cs1 self' → steps self' cs2 self'' → steps self (cs1 ++ cs2) self''.
Proof. induction 1; simpl; eauto using steps. Qed.

Lemma reachable_step self c self' : reachable self → step self c self' → reachable self'.
Proof.
  intros [cs Hsteps] Hstep. exists (cs ++ [c]).
  eapply steps_app; [done|]. eauto using steps.
Qed.
End Invariant.

(** ** The example states *)

Section Examples.
Lemma previous_at_live_line : history_previous at_live_line "ls" = Ok browsing.
Proof. reflexivity. Qed.

Lemma next_browsing fuel :
  history_next (S fuel) browsing "" = Some (Ok back_at_live_line).
Proof. reflexivity. Qed.

Lemma reachable_at_live_line : reachable at_live_line.
Proof. exists [SetHistory scenario_log]. repeat econstructor. Qed.

Lemma reachable_browsing : reachable browsing.
Proof.
  eapply reachable_step; [apply reachable_at_live_line|].
  apply (step_previous _ "ls"). reflexivity.
Qed.

(** From [browsing] a forward search for "ls" reads key 3 (no match),
    then index 4, which is neither an overlay key nor a log slot. *)
Lemma next_browsing_raises fuel :
  history_next (2 + fuel) browsing "ls" = Some (Raise IndexError).
Proof. reflexivity. Qed.

Lemma next_browsing_never_returns fuel self' :
  history_next fuel browsing "ls" ≠ Some (Ok self').
Proof.
  destruct fuel as [|[|fuel]]; [done|done|].
  change (S (S fuel)) with (2 + fuel)%nat. by rewrite next_browsing_raises.
Qed.
End Examples.

(** ** [history_tail] *)

Section Tail.
Implicit Types (self : HistoryConsoleWidget) (n : Z).

(** For a positive [n] the tail is the last [min n N] entries. *)
Lemma history_tail_pos self n :
  0 < n →
  history_tail self n `suffix_of` _history self
  ∧ len (history_tail self n) = Z.min n (len (_history self)).
Proof.
  intros Hn. split; [apply slice_from_suffix|].
  by apply slice_from_neg_length.
Qed.

(** For [n = 0] the slice [-0:] is the slice [0:]: the whole log. *)
Lemma history_tail_zero self : history_tail self 0 = _history self.
Proof. apply slice_from_zero. Qed.
End Tail.

(** C4. [history_tail(0)] on the three-entry log of the scenarios returns
    all three entries, not the empty sequence: more than the [n = 0]
    entries asked for. *)
Theorem history_tail_zero_returns_whole_log :
  history_tail at_live_line 0 = ["ls"; "cd /tmp"; "ls -la"]
  ∧ ¬ len (history_tail at_live_line 0) <= 0.
Proof. split; [reflexivity|]. vm_compute. by intros []. Qed.

(** ** Commits *)

(** C8. Whatever [execute] calls are made on a fresh console, with any
    sources, flags and superclass outcomes, the log holds no empty string
    and no two adjacent equal entries. *)
Theorem commits_keep_log_clean
    (calls : list (option string * bool * bool * super_execute)) :
  log_clean (_history (execute_all __init__ calls)).
Proof.
  apply execute_all_log_clean. split.
  - apply not_elem_of_nil.
  - intros i x y Hx. simpl in Hx. by rewrite lookup_nil in Hx.
Qed.

(** C9. When [execute] appended the trimmed candidate to the log, the
    overlay is empty afterwards and the index is the new log length. *)
Theorem execute_appended_resets self source hidden interactive super :
  _history (execute self source hidden interactive super).1
  = _history self ++ [candidate self source] →
  _history_edits (execute self source hidden interactive super).1 = ∅
  ∧ _history_index (execute self source hidden interactive super).1
    = len (_history (execute self source hidden interactive super).1).
Proof.
  intros Happ.
  destruct (execute_cases self source hidden interactive super)
    as (_ & [[_ Hsame]|(_ & Hedits & Hindex & _)]); [|done].
  rewrite Hsame in Happ. simpl in Happ.
  apply (f_equal length) in Happ. rewrite length_app in Happ. simpl in Happ. lia.
Qed.

Lemma execute_appended_resets_witness :
  _history_edits (execute browsing (Some "pwd ") false false ran).1 = ∅
  ∧ _history_index (execute browsing (Some "pwd ") false false ran).1
    = len (_history (execute browsing (Some "pwd ") false false ran).1).
Proof. apply execute_appended_resets. reflexivity. Defined.

(** C5, as stated, fails: a whitespace-only line executed while browsing
    is not appended, yet the overlay is emptied, the index goes back to
    the live line, and the flag returned is the superclass's [True]. *)
Lemma execute_rejected_resets_browsing :
  candidate browsing (Some "   ") = ""
  ∧ (execute browsing (Some "   ") false false ran).2 = true
  ∧ _history (execute browsing (Some "   ") false false ran).1 = _history browsing
  ∧ _history_edits (execute browsing (Some "   ") false false ran).1
    ≠ _history_edits browsing
  ∧ _history_index (execute browsing (Some "   ") false false ran).1
    ≠ _history_index browsing.
Proof.
  split_and!; [reflexivity..| |].
  - intros E. apply (f_equal (fun m => m !! 3)) in E. vm_compute in E. discriminate.
  - vm_compute. discriminate.
Qed.

(** C5, amended. When the trimmed candidate is empty or equals the last
    log entry, [execute] leaves the log unchanged and returns the flag of
    the superclass call.  If the line was executed and not hidden, the
    overlay is emptied and the index set to the log length all the same;
    otherwise overlay and index are unchanged. *)
Theorem execute_rejected_keeps_log self source hidden interactive super :
  candidate self source = "" ∨ last (_history self) = Some (candidate self source) →
  (execute self source hidden interactive super).2 = executed super
  ∧ _history (execute self source hidden interactive super).1 = _history self
  ∧ if executed super && negb hidden
    then _history_edits (execute self source hidden interactive super).1 = ∅
         ∧ _history_index (execute self source hidden interactive super).1
           = len (_history self)
    else _history_edits (execute self source hidden interactive super).1
         = _history_edits self
         ∧ _history_index (execute self source hidden interactive super).1
           = _history_index self.
Proof.
  intros Hrej.
  destruct (execute_cases self source hidden interactive super)
    as (Hret & [[-> ->]|(-> & Hedits & Hindex & Hlog)]); [done|].
  assert (_history (execute self source hidden interactive super).1 = _history self)
    as Hsame.
  { destruct Hlog as [(Hne & Hlast & _)|[_ ?]]; [|done]. by destruct Hrej. }
  rewrite Hindex, Hsame. done.
Qed.

Lemma execute_rejected_keeps_log_witness :
  (execute browsing (Some "ls -la  ") false false ran).2 = true
  ∧ _history (execute browsing (Some "ls -la  ") false false ran).1 = scenario_log
  ∧ _history_edits (execute browsing (Some "ls -la  ") false false ran).1 = ∅
    ∧ _history_index (execute browsing (Some "ls -la  ") false false ran).1 = 3.
Proof.
  apply (execute_rejected_keeps_log browsing (Some "ls -la  ") false false ran).
  right. reflexivity.
Defined.

(** ** Navigation *)

Section Navigation.
Implicit Types (self : HistoryConsoleWidget) (prefix h : string).

(** Neither navigation call touches the log. *)
Lemma history_previous_log self prefix self' :
  history_previous self prefix = Ok self' → _history self' = _history self.
Proof. by intros [[-> _]|(j & h & -> & _)]%history_previous_Ok. Qed.

Lemma history_next_log fuel self prefix self' :
  history_next fuel self prefix = Some (Ok self') → _history self' = _history self.
Proof. by intros [[-> _]|(j & h & -> & _)]%history_next_Ok. Qed.

(** A backward navigation that moved landed on the first index below
    whose effective text starts with the prefix, and shows that text. *)
Lemma history_previous_lands_on_prefix self prefix self' :
  history_previous self prefix = Ok self' → moved self self' →
  0 <= _history_index self' < _history_index self
  ∧ effective_text self (_history_index self') = Some (input_buffer self')
  ∧ effective_text self' (_history_index self') = Some (input_buffer self')
  ∧ startswith (input_buffer self') prefix = true.
Proof.
  intros [[-> _]|(j & h & -> & Hj & Hget & Hpre & _)]%history_previous_Ok Hmoved;
    [done|].
  apply get_edited_effective in Hget; [|lia]. simpl. split_and!; try done; try lia.
  unfold effective_text in *. simpl. by rewrite lookup_insert_ne by lia.
Qed.

(** The same for a forward navigation, from a non-negative index. *)
Lemma history_next_lands_on_prefix fuel self prefix self' :
  history_next fuel self prefix = Some (Ok self') → moved self self' →
  0 <= _history_index self →
  _history_index self < _history_index self'
  ∧ effective_text self (_history_index self') = Some (input_buffer self')
  ∧ effective_text self' (_history_index self') = Some (input_buffer self')
  ∧ startswith (input_buffer self') prefix = true.
Proof.
  intros [[-> _]|(j & h & -> & Hcond & Hj & Hget & Hpre & _)]%history_next_Ok Hmoved Hidx;
    [done|].
  apply get_edited_effective in Hget; [|lia]. simpl. split_and!; try done; try lia.
  unfold effective_text in *. simpl. by rewrite lookup_insert_ne by lia.
Qed.

(** When no index below has an effective text that starts with the
    prefix, a backward navigation from an index in [0, N] returns and
    changes nothing. *)
Lemma history_previous_no_match self prefix :
  _history_index self <= len (_history self) →
  (∀ i h, 0 <= i < _history_index self →
          effective_text self i = Some h → startswith h prefix = false) →
  history_previous self prefix = Ok self.
Proof.
  intros Hidx Hnone.
  destruct (history_previous_in_bounds self prefix Hidx) as [self' Hprev].
  rewrite Hprev. f_equal.
  apply history_previous_Ok in Hprev as [[-> _]|(j & h & -> & Hj & Hget & Hpre & _)];
    [done|].
  apply get_edited_effective in Hget; [|lia].
  rewrite (Hnone j h) in Hpre; [done|lia|done].
Qed.

(** The forward counterpart does not hold.  In a state that satisfies the
    invariant, with the index below N: when no index up to N has an
    effective text that starts with the prefix, [history_next] raises
    [IndexError] as soon as the fuel covers the [N + 1 - index] indices it
    visits. *)
Lemma history_next_raises_without_match fuel self prefix :
  history_inv self →
  _history_index self < len (_history self) →
  (∀ i h, _history_index self < i <= len (_history self) →
          effective_text self i = Some h → startswith h prefix = false) →
  (Z.to_nat (len (_history self) + 1 - _history_index self) <= fuel)%nat →
  history_next fuel self prefix = Some (Raise IndexError).
Proof.
  intros [Hindex Hkeys _] Hlt Hnone Hfuel.
  assert (map_Forall (fun k _ => k <= len (_history self)) (_history_edits self))
    as Hupper.
  { eapply map_Forall_impl; [done|]. simpl. intros. lia. }
  destruct (history_next_loop_bounded fuel self prefix (_history_index self)
              (len (_history self)) Hupper) as [r Hloop]; [lia..|].
  unfold history_next. rewrite Hloop. destruct r as [[[j h]|]|[]]; [| |done].
  - apply history_next_loop_found in Hloop as (_ & Hj & _ & Hget & Hpre & _).
    pose proof (get_edited_Ok_bound _ _ _ _ Hupper ltac:(lia) Hget) as Hle.
    apply get_edited_effective in Hget; [|lia].
    rewrite (Hnone j h) in Hpre; [done|lia|done].
  - apply history_next_loop_none in Hloop. lia.
Qed.

(** From an index below N with the live line [B] saved under key N, [B]
    starting with the prefix, forward calls lead back to the live line
    showing [B], in at most [N - index] calls. *)
Lemma forward_to_live_line (k : nat) self prefix B :
  (Z.to_nat (len (_history self) - _history_index self) <= k)%nat →
  0 <= _history_index self < len (_history self) →
  _history_edits self !! len (_history self) = Some B →
  startswith B prefix = true →
  ∃ (n : nat) self',
    (0 < n)%nat
    ∧ Z.of_nat n <= len (_history self) - _history_index self
    ∧ steps self (replicate n (HistoryNext prefix)) self'
    ∧ _history self' = _history self
    ∧ _history_index self' = len (_history self)
    ∧ input_buffer self' = B.
Proof.
  revert self. induction k as [|k IH]; intros self Hk Hidx Hlive HB; [lia|].
  set (N := len (_history self)) in *.
  destruct (history_next_loop_reaches self prefix (_history_index self) N)
    as (j & h & Hj & Hloop); [lia|lia| | |].
  { intros i Hi. destruct (decide (i = N)) as [->|Hne].
    - exists B. by apply get_edited_saved.
    - apply get_edited_in_log. fold N. lia. }
  { exists B. split; [|done]. by apply get_edited_saved. }
  pose proof (history_next_loop_found _ _ _ _ _ _ Hloop)
    as (_ & _ & _ & Hget & _).
  set (self1 := set_history_index j (_set_edited_input_buffer self h)).
  assert (step self (HistoryNext prefix) self1) as Hstep.
  { eapply step_next. unfold history_next. by rewrite Hloop. }
  destruct (decide (j = N)) as [->|Hne].
  - exists 1%nat, self1. split_and!; [lia|lia| |done|done|].
    + simpl. eauto using steps.
    + simpl. rewrite (get_edited_saved _ _ _ Hlive) in Hget. congruence.
  - destruct (IH self1) as (n & self2 & Hn & Hle & Hsteps & Hlog & Hindex & Hbuf).
    + simpl. fold N. lia.
    + simpl. fold N. lia.
    + simpl. fold N. by rewrite lookup_insert_ne by lia.
    + done.
    + exists (S n), self2. simpl in *. fold N in Hle.
      split_and!; [lia|lia| |done|done|done].
      eauto using steps.
Qed.
End Navigation.

(** C1. In the reachable state [browsing], [history_next("ls")] raises
    [IndexError]: the overlay entry under key 3 does not start with "ls",
    and the next lookup, at index 4, is outside the log. *)
Theorem history_next_raises_IndexError :
  reachable browsing
  ∧ _get_edited_history browsing 4 = Raise IndexError
  ∧ ∀ fuel, history_next (2 + fuel) browsing "ls" = Some (Raise IndexError).
Proof.
  split_and!; [apply reachable_browsing|reflexivity|apply next_browsing_raises].
Qed.

(** C6. In [browsing] no index above the current one has an effective
    text that starts with "ls", yet [history_next("ls")] does not return:
    it raises [IndexError], whatever the fuel. *)
Theorem history_next_no_match_raises :
  (∀ i h, _history_index browsing < i →
          effective_text browsing i = Some h → startswith h "ls" = false)
  ∧ (∀ fuel, history_next (2 + fuel) browsing "ls" = Some (Raise IndexError))
  ∧ (∀ fuel self', history_next fuel browsing "ls" ≠ Some (Ok self')).
Proof.
  split_and!; [|apply next_browsing_raises|apply next_browsing_never_returns].
  intros i h Hi. unfold effective_text. simpl in *.
  destruct (decide (i = 3)) as [->|Hne].
  - rewrite lookup_singleton_eq. by intros [= <-].
  - rewrite lookup_singleton_ne by done.
    rewrite bool_decide_eq_true_2 by lia.
    rewrite lookup_ge_None_2; [done|]. unfold scenario_log. simpl. lia.
Qed.

(** C2, as stated, fails: in [browsing] (index 2, N = 3) no index strictly
    between the current one and N exists, yet a forward navigation does not
    stop with the state unchanged.  The scan goes on to index N itself,
    reads the live line saved under key 3, and moves there. *)
Lemma history_next_reads_live_line :
  reachable browsing
  ∧ (∀ i, ¬ _history_index browsing < i < len (_history browsing))
  ∧ (∀ fuel, history_next (S fuel) browsing "" = Some (Ok back_at_live_line))
  ∧ (∀ fuel, history_next fuel browsing "" ≠ Some (Ok browsing)).
Proof.
  split_and!; [apply reachable_browsing| |apply next_browsing|].
  - intros i. simpl. unfold len. simpl. lia.
  - intros [|fuel]; [done|]. by rewrite next_browsing.
Qed.

(** C2, amended. In a state that satisfies the invariant the forward scan
    visits the indices above the current one in increasing order and is
    over within [N + 1 - index] evaluations of its loop condition.  When it
    breaks, it is at the first index whose effective text starts with the
    prefix, and that index is at most N: index N is part of the scan, its
    text being the live line saved in the overlay.  Started at index N the
    call returns at once with the state unchanged. *)
Theorem history_next_scan_bounded self prefix :
  history_inv self →
  is_Some (history_next_loop
             (Z.to_nat (len (_history self) + 1 - _history_index self))
             self prefix (_history_index self))
  ∧ (∀ fuel j h,
       history_next_loop fuel self prefix (_history_index self) = Some (Ok (Some (j, h))) →
       _history_index self < j <= len (_history self)
       ∧ (Z.to_nat (j - _history_index self) <= fuel)%nat
       ∧ effective_text self j = Some h
       ∧ startswith h prefix = true
       ∧ ∀ i, _history_index self < i < j →
              ∃ h', effective_text self i = Some h' ∧ startswith h' prefix = false)
  ∧ (_history_index self = len (_history self) →
     ∀ fuel, history_next (S fuel) self prefix = Some (Ok self)).
Proof.
  intros [Hindex Hkeys Hlive].
  assert (map_Forall (fun k _ => k <= len (_history self)) (_history_edits self))
    as Hupper.
  { eapply map_Forall_impl; [done|]. simpl. intros. lia. }
  split_and!.
  - apply (history_next_loop_bounded _ _ _ _ (len (_history self))); [done|lia..].
  - intros fuel j h (Hcond & Hj & Hfuel & Hget & Hpre & Hbetween)%history_next_loop_found.
    split_and!; try done.
    + by apply (get_edited_Ok_bound self j h); [|lia|].
    + apply get_edited_effective; [lia|done].
    + intros i Hi. destruct (Hbetween i Hi) as (h' & Hgi & Hpi).
      exists h'. split; [|done]. apply get_edited_effective; [lia|done].
  - intros Hend fuel. apply history_next_at_end. lia.
Qed.

Lemma history_next_scan_bounded_witness :
  is_Some (history_next_loop 2 browsing "ls" 2)
  ∧ (∀ fuel j h,
       history_next_loop fuel browsing "ls" 2 = Some (Ok (Some (j, h))) →
       2 < j <= 3
       ∧ (Z.to_nat (j - 2) <= fuel)%nat
       ∧ effective_text browsing j = Some h
       ∧ startswith h "ls" = true
       ∧ ∀ i, 2 < i < j →
              ∃ h', effective_text browsing i = Some h' ∧ startswith h' "ls" = false)
  ∧ (2 = 3 → ∀ fuel, history_next (S fuel) browsing "ls" = Some (Ok browsing)).
Proof.
  apply (history_next_scan_bounded browsing "ls").
  split; simpl.
  - unfold len. simpl. lia.
  - apply map_Forall_singleton. unfold len. simpl. lia.
  - intros _. rewrite lookup_singleton_eq. by eexists.
Defined.

(** C3, as stated, fails: the backward navigation that leaves the live
    line of [at_live_line] (old index 3 = N) writes the input buffer under
    key 3, so the overlay keys of the reachable state [browsing] are not
    within [0, N-1]. *)
Lemma history_previous_saves_live_line :
  reachable browsing
  ∧ _history_index at_live_line = len (_history at_live_line)
  ∧ history_previous at_live_line "ls" = Ok browsing
  ∧ _history_edits browsing !! len (_history browsing) = Some ""
  ∧ ¬ map_Forall (fun k _ => 0 <= k <= len (_history browsing) - 1)
                 (_history_edits browsing).
Proof.
  split_and!; [apply reachable_browsing|reflexivity..|].
  intros Hkeys. specialize (Hkeys 3 ""). simpl in Hkeys.
  rewrite lookup_singleton_eq in Hkeys. specialize (Hkeys eq_refl).
  unfold len in Hkeys. simpl in Hkeys. lia.
Qed.

(** C3, amended. In every reachable state the index is in [0, N] and the
    overlay keys are within [0, N]; a backward navigation that moves away
    from index N writes the input buffer under key N. *)
Theorem overlay_keys_within_log_length self :
  reachable self →
  0 <= _history_index self <= len (_history self)
  ∧ map_Forall (fun k _ => 0 <= k <= len (_history self)) (_history_edits self)
  ∧ ∀ prefix self',
      _history_index self = len (_history self) →
      history_previous self prefix = Ok self' → moved self self' →
      _history_edits self'
      = <[len (_history self) := input_buffer self]> (_history_edits self).
Proof.
  intros [Hindex Hkeys _]%reachable_inv. split_and!; [lia|lia|done|].
  intros prefix self' Hend [[-> _]|(j & h & -> & _)]%history_previous_Ok Hmoved; [done|].
  simpl. by rewrite Hend.
Qed.

Lemma overlay_keys_within_log_length_witness :
  0 <= _history_index at_live_line <= len (_history at_live_line)
  ∧ map_Forall (fun k _ => 0 <= k <= len (_history at_live_line))
               (_history_edits at_live_line)
  ∧ ∀ prefix self',
      _history_index at_live_line = len (_history at_live_line) →
      history_previous at_live_line prefix = Ok self' → moved at_live_line self' →
      _history_edits self'
      = <[len (_history at_live_line) := input_buffer at_live_line]>
          (_history_edits at_live_line).
Proof.
  apply (overlay_keys_within_log_length at_live_line).
  exists [SetHistory scenario_log]. apply (steps_cons _ _ at_live_line).
  - apply step_set_history.
  - apply steps_nil.
Defined.

(** C7, as stated, fails: from the live line of [at_live_line] with an
    empty buffer, [history_previous("ls")] moves to index 2, and then no
    number of [history_next("ls")] calls leads back to index 3: the saved
    live line does not start with "ls". *)
Lemma round_trip_needs_matching_buffer :
  _history_index at_live_line = len (_history at_live_line)
  ∧ history_previous at_live_line "ls" = Ok browsing
  ∧ moved at_live_line browsing
  ∧ ∀ n self',
      steps browsing (replicate n (HistoryNext "ls")) self' →
      _history_index self' ≠ len (_history self').
Proof.
  split_and!; [reflexivity|reflexivity|by vm_compute|].
  intros [|n] self' Hsteps; simpl in Hsteps.
  - inversion Hsteps; subst. by vm_compute.
  - inversion Hsteps as [|? ? self1 ? ? Hstep _]; subst.
    inversion Hstep as [| |fuel ? ? ? Hnext| |]; subst.
    by apply next_browsing_never_returns in Hnext.
Qed.

(** C7, amended.  From index N with a buffer [B] that starts with the
    prefix, a backward navigation that moved, followed by forward
    navigations with the same prefix, returns to index N with the buffer
    [B] again: some number of forward calls between 1 and the distance
    moved does it. *)
Theorem round_trip_to_live_line self prefix self1 :
  _history_index self = len (_history self) →
  startswith (input_buffer self) prefix = true →
  history_previous self prefix = Ok self1 →
  moved self self1 →
  ∃ (n : nat) self2,
    (0 < n)%nat
    ∧ Z.of_nat n <= len (_history self) - _history_index self1
    ∧ steps self1 (replicate n (HistoryNext prefix)) self2
    ∧ _history self2 = _history self
    ∧ _history_index self2 = len (_history self)
    ∧ input_buffer self2 = input_buffer self.
Proof.
  intros Hend HB [[-> _]|(j & h & -> & Hj & _)]%history_previous_Ok Hmoved; [done|].
  set (self1 := set_history_index j (_set_edited_input_buffer self h)).
  destruct (forward_to_live_line
              (Z.to_nat (len (_history self1) - _history_index self1))
              self1 prefix (input_buffer self))
    as (n & self2 & Hn & Hle & Hsteps & Hlog & Hindex & Hbuf); [lia| | |done|].
  - simpl. lia.
  - simpl. rewrite Hend. apply lookup_insert_eq.
  - exists n, self2. done.
Qed.

Lemma round_trip_to_live_line_witness :
  ∃ (n : nat) self2,
    (0 < n)%nat
    ∧ Z.of_nat n <= len (_history at_live_line) - _history_index browsing
    ∧ steps browsing (replicate n (HistoryNext "")) self2
    ∧ _history self2 = _history at_live_line
    ∧ _history_index self2 = len (_history at_live_line)
    ∧ input_buffer self2 = input_buffer at_live_line.
Proof.
  apply (round_trip_to_live_line at_live_line "" browsing).
  - reflexivity.
  - reflexivity.
  - reflexivity.
  - unfold moved. simpl. unfold len. simpl. lia.
Defined.

(** C10. From an index [k] with [0 < k <= N], [history_previous] with the
    empty prefix returns, saves the buffer under key [k], moves to index
    [k - 1] and shows the effective text there.  No navigation call that
    returns changes the log. *)
Theorem history_previous_empty_prefix self :
  0 < _history_index self <= len (_history self) →
  (∃ h,
     effective_text self (_history_index self - 1) = Some h
     ∧ history_previous self ""
       = Ok {| _history := _history self;
               _history_edits :=
                 <[_history_index self := input_buffer self]> (_history_edits self);
               _history_index := _history_index self - 1;
               _history_prefix := _history_prefix self;
               input_buffer := h |})
  ∧ (∀ any prefix self',
       history_previous any prefix = Ok self' → _history self' = _history any)
  ∧ (∀ fuel any prefix self',
       history_next fuel any prefix = Some (Ok self') → _history self' = _history any).
Proof.
  intros Hk. split_and!.
  - destruct (get_edited_in_log self (_history_index self - 1)) as [h Hget]; [lia|].
    exists h. split; [apply get_edited_effective; [lia|done]|].
    unfold history_previous.
    destruct (Z.to_nat (_history_index self)) as [|k] eqn:Hnat; [lia|].
    simpl. replace (Z.of_nat k) with (_history_index self - 1) by lia.
    unfold_bind. by rewrite Hget, startswith_empty.
  - intros any prefix self'. apply history_previous_log.
  - intros fuel any prefix self'. apply history_next_log.
Qed.

Lemma history_previous_empty_prefix_witness :
  (∃ h,
     effective_text browsing (2 - 1) = Some h
     ∧ history_previous browsing ""
       = Ok {| _history := scenario_log;
               _history_edits := <[2 := "ls -la"]> {[ 3 := "" ]};
               _history_index := 2 - 1;
               _history_prefix := "";
               input_buffer := h |})
  ∧ (∀ any prefix self',
       history_previous any prefix = Ok self' → _history self' = _history any)
  ∧ (∀ fuel any prefix self',
       history_next fuel any prefix = Some (Ok self') → _history self' = _history any).
Proof.
  apply (history_previous_empty_prefix browsing).
  simpl. unfold len. simpl. lia.
Defined.

(** * Further properties of the widget *)

(** ** Backward navigation *)

Section BackwardFacts.
Implicit Types (self : HistoryConsoleWidget) (prefix h : string).

(** The lookups of the state after a move: the buffer that was left under
    the old index, the old lookups elsewhere. *)
Lemma get_edited_after_move self j h i :
  _get_edited_history (set_history_index j (_set_edited_input_buffer self h)) i
  = if decide (i = _history_index self) then Ok (input_buffer self)
    else _get_edited_history self i.
Proof.
  unfold _get_edited_history. simpl. case_decide as Hi.
  - subst. by rewrite lookup_insert_eq.
  - by rewrite lookup_insert_ne.
Qed.

(** The backward loop breaks at [t] when [t] matches and the indices
    between [t] and the start were read without a match. *)
Lemma history_previous_loop_reaches self prefix (n : nat) (t : Z) h :
  0 <= t < Z.of_nat n →
  _get_edited_history self t = Ok h →
  startswith h prefix = true →
  (∀ i, t < i < Z.of_nat n →
        ∃ h', _get_edited_history self i = Ok h' ∧ startswith h' prefix = false) →
  history_previous_loop self prefix n = Ok (Some (t, h)).
Proof.
  intros Ht Hget Hpre. induction n as [|n IH]; intros Hbetween; [lia|].
  simpl. unfold_bind. destruct (decide (t = Z.of_nat n)) as [->|Hne].
  - by rewrite Hget, Hpre.
  - destruct (Hbetween (Z.of_nat n)) as (h' & -> & ->); [lia|].
    apply IH; [lia|]. intros i Hi. apply Hbetween. lia.
Qed.
End BackwardFacts.

(** X1. From an index that is at most N, [history_previous] returns: its
    lookups stay inside the log, whatever the overlay holds. *)
Theorem history_previous_returns self prefix :
  _history_index self <= len (_history self) →
  ∃ self', history_previous self prefix = Ok self' ∧ _history self' = _history self.
Proof.
  intros Hindex.
  destruct (history_previous_in_bounds self prefix Hindex) as [self' Hprev].
  exists self'. split; [done|]. by eapply history_previous_log.
Qed.

Lemma history_previous_returns_witness :
  ∃ self', history_previous browsing "cd" = Ok self' ∧ _history self' = _history browsing.
Proof.
  apply (history_previous_returns browsing "cd").
  simpl. unfold len. simpl. lia.
Defined.

(** X2. From an index that is at most N, [history_previous] leaves the
    whole state as it was, overlay included, exactly when no index below
    has an effective text that starts with the prefix. *)
Theorem history_previous_unchanged_iff self prefix :
  _history_index self <= len (_history self) →
  history_previous self prefix = Ok self
  ↔ ∀ i h, 0 <= i < _history_index self →
           effective_text self i = Some h → startswith h prefix = false.
Proof.
  intros Hindex. split.
  - intros [[_ Hnone]|(j & h & Hself & Hj & _)]%history_previous_Ok.
    + intros i h Hi Heff. destruct (Hnone i Hi) as (h' & Hget & Hpre).
      apply get_edited_effective in Hget; [|lia]. congruence.
    + apply (f_equal _history_index) in Hself. simpl in Hself. lia.
  - by apply history_previous_no_match.
Qed.

Lemma history_previous_unchanged_iff_witness :
  history_previous browsing "pwd" = Ok browsing
  ↔ ∀ i h, 0 <= i < _history_index browsing →
           effective_text browsing i = Some h → startswith h "pwd" = false.
Proof.
  apply (history_previous_unchanged_iff browsing "pwd").
  simpl. unfold len. simpl. lia.
Defined.

(** X3. A [history_previous] that moved went to the nearest index below
    whose effective text starts with the prefix, shows that text, and saved
    the buffer it replaced under the index it left; log and search prefix
    are as before. *)
Theorem history_previous_moves_to_nearest self prefix self' :
  history_previous self prefix = Ok self' →
  moved self self' →
  0 <= _history_index self' < _history_index self
  ∧ effective_text self (_history_index self') = Some (input_buffer self')
  ∧ startswith (input_buffer self') prefix = true
  ∧ (∀ i h, _history_index self' < i < _history_index self →
            effective_text self i = Some h → startswith h prefix = false)
  ∧ _history_edits self'
    = <[_history_index self := input_buffer self]> (_history_edits self)
  ∧ _history self' = _history self
  ∧ _history_prefix self' = _history_prefix self.
Proof.
  intros [[-> _]|(j & h & -> & Hj & Hget & Hpre & Hbetween)]%history_previous_Ok Hmoved;
    [done|].
  simpl. split_and!; try done; try lia.
  - apply get_edited_effective; [lia|done].
  - intros i h' Hi Heff. destruct (Hbetween i Hi) as (h'' & Hgi & Hpi).
    apply get_edited_effective in Hgi; [|lia]. congruence.
Qed.

Lemma history_previous_moves_to_nearest_witness :
  0 <= _history_index browsing < _history_index at_live_line
  ∧ effective_text at_live_line (_history_index browsing) = Some (input_buffer browsing)
  ∧ startswith (input_buffer browsing) "ls" = true
  ∧ (∀ i h, _history_index browsing < i < _history_index at_live_line →
            effective_text at_live_line i = Some h → startswith h "ls" = false)
  ∧ _history_edits browsing
    = <[_history_index at_live_line := input_buffer at_live_line]>
        (_history_edits at_live_line)
  ∧ _history browsing = _history at_live_line
  ∧ _history_prefix browsing = _history_prefix at_live_line.
Proof.
  apply (history_previous_moves_to_nearest at_live_line "ls" browsing).
  - reflexivity.
  - unfold moved. simpl. unfold len. simpl. lia.
Defined.

(** ** Forward navigation *)

Section ForwardFacts.
Implicit Types (self : HistoryConsoleWidget) (prefix h : string).

(** In a state that satisfies the invariant every index from the current
    one up to N can be read. *)
Lemma get_edited_upto_live self i :
  history_inv self →
  _history_index self < len (_history self) →
  _history_index self < i <= len (_history self) →
  ∃ h, _get_edited_history self i = Ok h.
Proof.
  intros [Hindex _ Hlive] Hlt Hi.
  destruct (decide (i = len (_history self))) as [->|Hne].
  - destruct (Hlive Hlt) as [B HB]. exists B. by apply get_edited_saved.
  - apply get_edited_in_log. lia.
Qed.

(** The break of the forward loop, for every fuel that covers the
    distance. *)
Lemma history_next_reaches fuel self prefix j :
  _history_index self < len (_history self) →
  _history_index self < j →
  (∀ i, _history_index self < i <= j → ∃ h, _get_edited_history self i = Ok h) →
  (∃ h, _get_edited_history self j = Ok h ∧ startswith h prefix = true) →
  (Z.to_nat (j - _history_index self) <= fuel)%nat →
  ∃ j' h',
    _history_index self < j' <= j
    ∧ _get_edited_history self j' = Ok h'
    ∧ startswith h' prefix = true
    ∧ (∀ i, _history_index self < i < j' →
            ∃ h'', _get_edited_history self i = Ok h'' ∧ startswith h'' prefix = false)
    ∧ history_next fuel self prefix
      = Some (Ok (set_history_index j' (_set_edited_input_buffer self h'))).
Proof.
  intros Hcond Hj Hread Hmatch Hfuel.
  destruct (history_next_loop_reaches self prefix (_history_index self) j
              Hcond Hj Hread Hmatch) as (j' & h' & Hj' & Hloop).
  pose proof (history_next_loop_found _ _ _ _ _ _ Hloop)
    as (_ & _ & _ & Hget & Hpre & Hbetween).
  exists j', h'. split_and!; try done; try lia.
  unfold history_next.
  by rewrite (history_next_loop_mono _ _ _ _ _ _ Hloop Hfuel).
Qed.
End ForwardFacts.

(** With a match up to N, [history_next] returns and moves to the nearest
    one. *)
Lemma history_next_with_match fuel self prefix :
  history_inv self →
  _history_index self < len (_history self) →
  (∃ i h, _history_index self < i <= len (_history self)
          ∧ effective_text self i = Some h ∧ startswith h prefix = true) →
  (Z.to_nat (len (_history self) - _history_index self) <= fuel)%nat →
  ∃ self',
    history_next fuel self prefix = Some (Ok self')
    ∧ _history_index self < _history_index self' <= len (_history self)
    ∧ effective_text self (_history_index self') = Some (input_buffer self')
    ∧ startswith (input_buffer self') prefix = true
    ∧ (∀ i h, _history_index self < i < _history_index self' →
              effective_text self i = Some h → startswith h prefix = false)
    ∧ _history_edits self'
      = <[_history_index self := input_buffer self]> (_history_edits self)
    ∧ _history self' = _history self.
Proof.
  intros Hinv Hlt (i & h & Hi & Heff & Hpre) Hfuel.
  pose proof (inv_index _ Hinv) as Hindex.
  destruct (history_next_reaches fuel self prefix i)
    as (j & h' & Hj & Hget & Hpj & Hbetween & Hnext); [done|lia| | |lia|].
  { intros i' Hi'. apply get_edited_upto_live; [done|done|lia]. }
  { exists h. split; [|done]. apply get_edited_effective; [lia|done]. }
  eexists. split; [done|]. simpl. split_and!; try done; try lia.
  - apply get_edited_effective; [lia|done].
  - intros i' h'' Hi' Heff'. destruct (Hbetween i' Hi') as (h3 & Hg3 & Hp3).
    apply get_edited_effective in Hg3; [|lia]. congruence.
Qed.

(** X4. In a state that satisfies the invariant, with the index below N:
    when some index up to N has an effective text that starts with the
    prefix, [history_next] returns, for every fuel of at least [N - index],
    and its move goes to the nearest such index, shows that text and saves
    the buffer it replaced under the index it left. *)
Theorem history_next_moves_to_nearest fuel self prefix :
  history_inv self →
  _history_index self < len (_history self) →
  (∃ i h, _history_index self < i <= len (_history self)
          ∧ effective_text self i = Some h ∧ startswith h prefix = true) →
  (Z.to_nat (len (_history self) - _history_index self) <= fuel)%nat →
  ∃ self',
    history_next fuel self prefix = Some (Ok self')
    ∧ _history_index self < _history_index self' <= len (_history self)
    ∧ effective_text self (_history_index self') = Some (input_buffer self')
    ∧ startswith (input_buffer self') prefix = true
    ∧ (∀ i h, _history_index self < i < _history_index self' →
              effective_text self i = Some h → startswith h prefix = false)
    ∧ _history_edits self'
      = <[_history_index self := input_buffer self]> (_history_edits self)
    ∧ _history self' = _history self.
Proof. apply history_next_with_match. Qed.

Lemma browsing_inv : history_inv browsing.
Proof.
  split; simpl.
  - unfold len. simpl. lia.
  - apply map_Forall_singleton. unfold len. simpl. lia.
  - intros _. rewrite lookup_singleton_eq. by eexists.
Qed.

Lemma history_next_moves_to_nearest_witness :
  ∃ self',
    history_next 1 browsing "" = Some (Ok self')
    ∧ _history_index browsing < _history_index self' <= len (_history browsing)
    ∧ effective_text browsing (_history_index self') = Some (input_buffer self')
    ∧ startswith (input_buffer self') "" = true
    ∧ (∀ i h, _history_index browsing < i < _history_index self' →
              effective_text browsing i = Some h → startswith h "" = false)
    ∧ _history_edits self'
      = <[_history_index browsing := input_buffer browsing]> (_history_edits browsing)
    ∧ _history self' = _history browsing.
Proof.
  apply (history_next_moves_to_nearest 1 browsing "").
  - apply browsing_inv.
  - simpl. unfold len. simpl. lia.
  - exists 3, "". split_and!; [simpl; unfold len; simpl; lia|reflexivity..].
  - simpl. unfold len. simpl. lia.
Defined.

(** X5. In a state that satisfies the invariant, with the index below N:
    when no index up to N has an effective text that starts with the
    prefix, and only then, [history_next] raises [IndexError], for every
    fuel of at least [N + 1 - index]. *)
Theorem history_next_raises_iff_no_match fuel self prefix :
  history_inv self →
  _history_index self < len (_history self) →
  (Z.to_nat (len (_history self) + 1 - _history_index self) <= fuel)%nat →
  history_next fuel self prefix = Some (Raise IndexError)
  ↔ ∀ i h, _history_index self < i <= len (_history self) →
           effective_text self i = Some h → startswith h prefix = false.
Proof.
  intros Hinv Hlt Hfuel. split.
  - intros Hraise i h Hi Heff. destruct (startswith h prefix) eqn:Hpre; [|done].
    destruct (history_next_with_match fuel self prefix Hinv Hlt)
      as (self' & Hnext & _); [by exists i, h|lia|congruence].
  - intros Hnone. by apply history_next_raises_without_match.
Qed.

Lemma history_next_raises_iff_no_match_witness :
  history_next 2 browsing "ls" = Some (Raise IndexError)
  ↔ ∀ i h, _history_index browsing < i <= len (_history browsing) →
           effective_text browsing i = Some h → startswith h "ls" = false.
Proof.
  apply (history_next_raises_iff_no_match 2 browsing "ls").
  - apply browsing_inv.
  - simpl. unfold len. simpl. lia.
  - simpl. unfold len. simpl. lia.
Defined.

(** ** One step back and forth *)

(** Back and forth in one step each. *)
Lemma previous_then_next fuel self prefix self1 :
  _history_index self <= len (_history self) →
  startswith (input_buffer self) prefix = true →
  history_previous self prefix = Ok self1 →
  moved self self1 →
  (Z.to_nat (_history_index self - _history_index self1) <= fuel)%nat →
  history_next fuel self1 prefix
  = Some (Ok {| _history := _history self;
                _history_edits :=
                  <[_history_index self1 := input_buffer self1]>
                    (<[_history_index self := input_buffer self]> (_history_edits self));
                _history_index := _history_index self;
                _history_prefix := _history_prefix self;
                input_buffer := input_buffer self |}).
Proof.
  intros Hindex HB
    [[-> _]|(j & h & -> & Hj & Hget & Hpre & Hbetween)]%history_previous_Ok Hmoved;
    [done|].
  set (self1 := set_history_index j (_set_edited_input_buffer self h)).
  intros Hfuel.
  destruct (history_next_reaches fuel self1 prefix (_history_index self))
    as (j' & h' & Hj' & Hget' & Hpre' & _ & ->); simpl; try lia.
  { intros i Hi. unfold self1. rewrite get_edited_after_move.
    case_decide; [by eexists|]. destruct (Hbetween i) as (h' & ? & _); [lia|].
    by eexists. }
  { exists (input_buffer self). unfold self1. rewrite get_edited_after_move.
    by rewrite decide_True by done. }
  { exact Hfuel. }
  unfold self1 in Hget'. rewrite get_edited_after_move in Hget'.
  case_decide as Hend.
  - injection Hget' as <-. by rewrite Hend.
  - destruct (Hbetween j') as (h'' & Hg & Hp); [simpl in Hj'; lia|]. congruence.
Qed.

(** X6. From an index that is at most N, with a buffer that starts with
    the prefix: a [history_previous] that moved, followed by one
    [history_next] with the same prefix, is back at the index it left with
    the buffer it left; the overlay has gained the two texts shown on the
    way. *)
Theorem previous_then_next_restores fuel self prefix self1 :
  _history_index self <= len (_history self) →
  startswith (input_buffer self) prefix = true →
  history_previous self prefix = Ok self1 →
  moved self self1 →
  (Z.to_nat (_history_index self - _history_index self1) <= fuel)%nat →
  history_next fuel self1 prefix
  = Some (Ok {| _history := _history self;
                _history_edits :=
                  <[_history_index self1 := input_buffer self1]>
                    (<[_history_index self := input_buffer self]> (_history_edits self));
                _history_index := _history_index self;
                _history_prefix := _history_prefix self;
                input_buffer := input_buffer self |}).
Proof. apply previous_then_next. Qed.

Lemma previous_then_next_restores_witness :
  history_next 1 browsing ""
  = Some (Ok {| _history := _history at_live_line;
                _history_edits :=
                  <[_history_index browsing := input_buffer browsing]>
                    (<[_history_index at_live_line := input_buffer at_live_line]>
                       (_history_edits at_live_line));
                _history_index := _history_index at_live_line;
                _history_prefix := _history_prefix at_live_line;
                input_buffer := input_buffer at_live_line |}).
Proof.
  apply (previous_then_next_restores 1 at_live_line "" browsing).
  - simpl. lia.
  - reflexivity.
  - reflexivity.
  - unfold moved. simpl. unfold len. simpl. lia.
  - simpl. unfold len. simpl. lia.
Defined.

(** X7. The other way round, from a non-negative index with a buffer that
    starts with the prefix: a [history_next] that moved, followed by one
    [history_previous] with the same prefix, is back at the index it left
    with the buffer it left. *)
Theorem next_then_previous_restores fuel self prefix self1 :
  0 <= _history_index self →
  startswith (input_buffer self) prefix = true →
  history_next fuel self prefix = Some (Ok self1) →
  moved self self1 →
  history_previous self1 prefix
  = Ok {| _history := _history self;
          _history_edits :=
            <[_history_index self1 := input_buffer self1]>
              (<[_history_index self := input_buffer self]> (_history_edits self));
          _history_index := _history_index self;
          _history_prefix := _history_prefix self;
          input_buffer := input_buffer self |}.
Proof.
  intros Hindex HB
    [[-> _]|(j & h & -> & Hcond & Hj & Hget & Hpre & Hbetween)]%history_next_Ok Hmoved;
    [done|].
  set (self1 := set_history_index j (_set_edited_input_buffer self h)).
  unfold history_previous.
  rewrite (history_previous_loop_reaches self1 prefix _ (_history_index self)
             (input_buffer self)); simpl; try done; try lia.
  - unfold self1. rewrite get_edited_after_move. by rewrite decide_True by done.
  - intros i Hi. unfold self1. rewrite get_edited_after_move.
    rewrite decide_False by lia. apply Hbetween. lia.
Qed.

Lemma next_then_previous_restores_witness :
  history_previous back_at_live_line ""
  = Ok {| _history := _history browsing;
          _history_edits :=
            <[_history_index back_at_live_line := input_buffer back_at_live_line]>
              (<[_history_index browsing := input_buffer browsing]>
                 (_history_edits browsing));
          _history_index := _history_index browsing;
          _history_prefix := _history_prefix browsing;
          input_buffer := input_buffer browsing |}.
Proof.
  apply (next_then_previous_restores 1 browsing "" back_at_live_line).
  - simpl. lia.
  - reflexivity.
  - reflexivity.
  - unfold moved. simpl. lia.
Defined.

(** X8. In every reachable state in which the index is below N the overlay
    has an entry under key N: while the user browses, the live line is
    kept. *)
Theorem browsing_keeps_live_line self :
  reachable self →
  _history_index self < len (_history self) →
  is_Some (_history_edits self !! len (_history self)).
Proof. intros Hinv%reachable_inv. apply Hinv. Qed.

Lemma browsing_keeps_live_line_witness :
  is_Some (_history_edits browsing !! len (_history browsing)).
Proof.
  apply (browsing_keeps_live_line browsing).
  - exists [SetHistory scenario_log; HistoryPrevious "ls"].
    apply (steps_cons _ _ at_live_line); [apply step_set_history|].
    apply (steps_cons _ _ browsing); [|apply steps_nil].
    apply step_previous. reflexivity.
  - simpl. unfold len. simpl. lia.
Defined.

(** ** The log under [execute] *)

Section LogFacts.
Implicit Types (self : HistoryConsoleWidget) (source : option string).

Lemma rstrip_idem s : rstrip (rstrip s) = rstrip s.
Proof.
  induction s as [|c s IH]; [done|]. simpl.
  destruct (rstrip s) as [|c' r] eqn:Hr.
  - destruct (isspace c) eqn:Hc; [done|]. simpl. by rewrite Hc.
  - remember (String c' r) as t eqn:Ht. simpl. rewrite IH. by subst t.
Qed.

Lemma getitem_last {A} (l : list A) x : last l = Some x → getitem l (len l - 1) = Ok x.
Proof.
  intros Hlast. assert (0 < len l).
  { destruct l; [done|]. unfold len. simpl. lia. }
  rewrite getitem_nonneg by lia. rewrite last_lookup in Hlast.
  replace (Z.to_nat (len l - 1)) with (pred (length l)) by (unfold len; lia).
  by rewrite Hlast.
Qed.

(** After an executed, visible call the trimmed candidate, unless empty,
    is the last entry of the log. *)
Lemma execute_last self source interactive super :
  executed super = true →
  candidate self source ≠ "" →
  last (_history (execute self source false interactive super).1)
  = Some (candidate self source).
Proof.
  intros Hrun Hne.
  destruct (execute_cases self source false interactive super)
    as (_ & [[Hno _]|(_ & _ & _ & [(_ & _ & ->)|[[?|Hlast] ->]])]).
  - by rewrite Hrun in Hno.
  - apply last_snoc.
  - done.
  - done.
Qed.

Lemma step_log_prefix self c self' :
  step self c self' → (∀ history, c ≠ SetHistory history) →
  _history self `prefix_of` _history self'.
Proof.
  intros Hstep Hc. destruct Hstep as
    [self source hidden interactive super | self prefix self' Hprev
    | fuel self prefix self' Hnext | self history | self text].
  - destruct (execute_cases self source hidden interactive super)
      as (_ & [[_ ->]|(_ & _ & _ & [(_ & _ & ->)|[_ ->]])]); try done.
    by apply prefix_app_r.
  - by rewrite (history_previous_log _ _ _ Hprev).
  - by rewrite (history_next_log _ _ _ _ Hnext).
  - by destruct (Hc history).
  - done.
Qed.

Lemma execute_all_trimmed self calls :
  Forall (fun e => rstrip e = e) (_history self) →
  Forall (fun e => rstrip e = e) (_history (execute_all self calls)).
Proof.
  revert self. induction calls as [|[[[source hidden] interactive] super] calls IH];
    intros self Hlog; [done|].
  apply IH.
  destruct (execute_cases self source hidden interactive super)
    as (_ & [[_ ->]|(_ & _ & _ & [(_ & _ & ->)|[_ ->]])]); try done.
  apply Forall_app. split; [done|]. apply Forall_singleton. apply rstrip_idem.
Qed.
End LogFacts.

(** X9. Whatever calls are made, as long as none of them is
    [_set_history], the log only grows at its end: the log before is a
    prefix of the log after, so an entry keeps its index. *)
Theorem log_is_append_only self cs self' :
  steps self cs self' →
  Forall (fun c => ∀ history, c ≠ SetHistory history) cs →
  _history self `prefix_of` _history self'.
Proof.
  induction 1 as [self|self c self1 cs self2 Hstep Hsteps IH]; intros Hcs; [done|].
  apply Forall_cons in Hcs as [Hc Hcs].
  etrans; [by eapply step_log_prefix|by apply IH].
Qed.

Lemma log_is_append_only_witness :
  _history at_live_line `prefix_of` _history (execute browsing (Some "pwd") false false ran).1.
Proof.
  apply (log_is_append_only at_live_line
           [HistoryPrevious "ls"; Execute (Some "pwd") false false ran]).
  - apply (steps_cons _ _ browsing); [by apply step_previous|].
    eapply steps_cons; [apply step_execute|apply steps_nil].
  - repeat constructor; discriminate.
Defined.



(** X11. After a visible call that the superclass executed, with a
    candidate that is not empty once trimmed, one [history_previous] with
    the empty prefix shows that trimmed candidate: the line just executed
    is the first one recalled, also when it was not appended again. *)
Theorem executed_line_is_recalled self source interactive super :
  executed super = true →
  candidate self source ≠ "" →
  ∃ self',
    history_previous (execute self source false interactive super).1 "" = Ok self'
    ∧ input_buffer self' = candidate self source
    ∧ _history_index self'
      = len (_history (execute self source false interactive super).1) - 1.
Proof.
  intros Hrun Hne.
  pose proof (execute_last self source interactive super Hrun Hne) as Hlast.
  destruct (execute_cases self source false interactive super)
    as (_ & [[Hno _]|(_ & Hedits & Hindex & _)]); [by rewrite Hrun in Hno|].
  set (self1 := (execute self source false interactive super).1) in *.
  apply getitem_last in Hlast.
  assert (0 < len (_history self1)) as Hpos.
  { apply getitem_Ok_range in Hlast. lia. }
  unfold history_previous. rewrite Hindex.
  destruct (Z.to_nat (len (_history self1))) as [|k] eqn:Hk; [lia|].
  simpl. replace (Z.of_nat k) with (len (_history self1) - 1) by lia.
  unfold_bind. unfold _get_edited_history. rewrite Hedits, lookup_empty, Hlast.
  rewrite startswith_empty. eexists. split; [done|]. by simpl.
Qed.

Lemma executed_line_is_recalled_witness :
  ∃ self',
    history_previous (execute browsing (Some "ls -la  ") false false ran).1 "" = Ok self'
    ∧ input_buffer self' = candidate browsing (Some "ls -la  ")
    ∧ _history_index self'
      = len (_history (execute browsing (Some "ls -la  ") false false ran).1) - 1.
Proof.
  apply (executed_line_is_recalled browsing (Some "ls -la  ") false ran).
  - reflexivity.
  - discriminate.
Defined.

(** X12. Every entry that [execute] calls put into the log of a fresh
    console is free of trailing whitespace: trimming it again changes
    nothing. *)
Theorem log_entries_are_trimmed
    (calls : list (option string * bool * bool * super_execute)) :
  Forall (fun e => rstrip e = e) (_history (execute_all __init__ calls)).
Proof. apply execute_all_trimmed. simpl. constructor. Qed.

(** ** [history_tail] away from zero *)

(** X13. For a positive [n], [history_tail] returns the last [n] entries
    of the log in their order, all of them when the log has fewer. *)
Theorem history_tail_returns_last_entries self n :
  0 < n →
  (∃ front, _history self = front ++ history_tail self n)
  ∧ len (history_tail self n) = Z.min n (len (_history self)).
Proof.
  intros Hn. destruct (history_tail_pos self n Hn) as [Hsuffix Hlen]. done.
Qed.

Lemma history_tail_returns_last_entries_witness :
  (∃ front, _history at_live_line = front ++ history_tail at_live_line 2)
  ∧ len (history_tail at_live_line 2) = Z.min 2 (len (_history at_live_line)).
Proof. apply (history_tail_returns_last_entries at_live_line 2). lia. Defined.



(** ** The key handlers *)

Section Keys.
Implicit Types (self : HistoryConsoleWidget) (prefix h : string) (col : Z).

Lemma substring_prefix (n : nat) s : String.prefix (substring 0 n s) s = true.
Proof.
  revert n. induction s as [|c s IH]; intros [|n]; simpl; try done.
  destruct (ascii_dec c c); [apply IH|done].
Qed.

(** Whatever the column, [s[:col]] is a prefix of [s]. *)
Lemma str_slice_to_prefix s col : startswith s (str_slice_to s col) = true.
Proof. unfold startswith, str_slice_to. apply substring_prefix. Qed.

Lemma history_previous_prefix self prefix self' :
  history_previous self prefix = Ok self' → _history_prefix self' = _history_prefix self.
Proof. by intros [[-> _]|(j & h & -> & _)]%history_previous_Ok. Qed.

Lemma history_next_prefix fuel self prefix self' :
  history_next fuel self prefix = Some (Ok self') →
  _history_prefix self' = _history_prefix self.
Proof. by intros [[-> _]|(j & h & -> & _)]%history_next_Ok. Qed.

(** The paths through [_up_pressed] that return. *)
Lemma _up_pressed_Ok self on_prompt_line col self' ret :
  _up_pressed self on_prompt_line col = Ok (self', ret) →
  (on_prompt_line = false ∧ self' = self ∧ ret = true)
  ∨ (on_prompt_line = true ∧ ret = false
     ∧ (_history_index self = len (_history self)
        ∨ (_history_prefix self ≠ "" ∧ col ≠ str_len (_history_prefix self)))
     ∧ history_previous
         (set_history_prefix (str_slice_to (input_buffer self) col)
            (set_history_index (len (_history self)) self))
         (str_slice_to (input_buffer self) col) = Ok self')
  ∨ (on_prompt_line = true ∧ ret = false
     ∧ _history_index self ≠ len (_history self)
     ∧ (_history_prefix self = "" ∨ col = str_len (_history_prefix self))
     ∧ history_previous self (_history_prefix self) = Ok self').
Proof.
  unfold _up_pressed. destruct on_prompt_line; [|intros [= <- <-]; by left].
  cbv zeta.
  destruct (decide (_history_index self = len (_history self))) as [Hend|Hend].
  - rewrite (bool_decide_eq_true_2 _ Hend). simpl. unfold_bind.
    destruct (history_previous _ _) as [self1|e] eqn:Hprev; [|done].
    intros [= <- <-]. right. left. split_and!; try done. by left.
  - rewrite (bool_decide_eq_false_2 _ Hend). simpl.
    destruct (decide (_history_prefix self = "")) as [Hp|Hp].
    { rewrite (bool_decide_eq_false_2 (_history_prefix self ≠ "")) by (by intros []).
      simpl. unfold_bind.
      destruct (history_previous _ _) as [self1|e] eqn:Hprev; [|done].
      intros [= <- <-]. right. right. split_and!; try done. by left. }
    rewrite (bool_decide_eq_true_2 _ Hp). simpl.
    destruct (decide (col = str_len (_history_prefix self))) as [Hc|Hc].
    + rewrite (bool_decide_eq_false_2 (col ≠ _)) by (by intros []). unfold_bind.
      destruct (history_previous _ _) as [self1|e] eqn:Hprev; [|done].
      intros [= <- <-]. right. right. split_and!; try done. by right.
    + rewrite (bool_decide_eq_true_2 _ Hc). simpl. unfold_bind.
      destruct (history_previous _ _) as [self1|e] eqn:Hprev; [|done].
      intros [= <- <-]. right. left. split_and!; try done. by right.
Qed.

(** [_up_pressed] returns from every index that is at most N.  So when it
    raises, the index was above N and the branch that sets index and prefix
    was not taken: the exception leaves the widget as it was. *)
Lemma _up_pressed_returns self on_prompt_line col :
  _history_index self <= len (_history self) →
  ∃ self' ret, _up_pressed self on_prompt_line col = Ok (self', ret).
Proof.
  intros Hindex. unfold _up_pressed. destruct on_prompt_line; [|by eexists _, _].
  cbv zeta. unfold_bind.
  match goal with |- context [history_previous ?s ?p] =>
    destruct (history_previous_in_bounds s p) as [self' ->] end.
  - destruct (_ || _); simpl; lia.
  - by eexists _, _.
Qed.

Lemma _down_pressed_Ok fuel self on_end_line self' ret :
  _down_pressed fuel self on_end_line = Some (Ok (self', ret)) →
  (on_end_line = false ∧ self' = self ∧ ret = true)
  ∨ (on_end_line = true ∧ ret = false
     ∧ history_next fuel self (_history_prefix self) = Some (Ok self')).
Proof.
  unfold _down_pressed. destruct on_end_line; [|intros [= <- <-]; by left].
  destruct (history_next _ _ _) as [[self1|e]|]; [|done|done].
  unfold_bind. intros [= <- <-]. by right.
Qed.

Lemma key_inv_same self self' :
  key_inv self →
  _history self' = _history self →
  _history_edits self' = _history_edits self →
  _history_index self' = _history_index self →
  _history_prefix self' = _history_prefix self →
  key_inv self'.
Proof.
  intros [[Hindex Hkeys Hlive] Hkey] Hlog Hedits Hidx Hpre.
  split; [split|]; rewrite ?Hlog, ?Hedits, ?Hidx, ?Hpre; done.
Qed.

Lemma key_inv_fresh self :
  _history_edits self = ∅ → _history_index self = len (_history self) → key_inv self.
Proof.
  intros Hedits Hindex. split; [by apply history_inv_fresh|]. lia.
Qed.

(** A move from a browsing position keeps the invariant of the keys. *)
Lemma key_inv_move self j h :
  key_inv self → _history_index self < len (_history self) →
  0 <= j <= len (_history self) → j ≠ _history_index self →
  key_inv (set_history_index j (_set_edited_input_buffer self h)).
Proof.
  intros [Hinv Hkey] Hlt Hj Hne. split; [by apply history_inv_move|].
  simpl. intros _. destruct (Hkey Hlt) as (B & HB & Hpre).
  exists B. split; [|done]. by rewrite lookup_insert_ne by lia.
Qed.

Lemma key_step_inv self self' : key_step self self' → key_inv self → key_inv self'.
Proof.
  intros Hstep Hinv. destruct Hstep as
    [self source hidden interactive super | self on_prompt_line col self' ret Hup
    | fuel self on_end_line self' ret Hdown | self history | self text].
  - destruct (execute_cases self source hidden interactive super)
      as (_ & [[_ ->]|(_ & Hedits & Hindex & _)]).
    + by apply (key_inv_same self).
    + by apply key_inv_fresh.
  - pose proof (inv_index _ (key_history _ Hinv)) as Hindex.
    apply _up_pressed_Ok in Hup
      as [(_ & -> & _)|[(_ & _ & _ & Hprev)|(_ & _ & Hend & _ & Hprev)]]; [done| |].
    + set (self0 := set_history_prefix _ _) in Hprev.
      assert (history_inv self0) as Hinv0.
      { destruct Hinv as [[? Hkeys ?] _]. split; simpl; [lia|done|lia]. }
      apply history_previous_Ok in Hprev as [[-> _]|(j & h & -> & Hj & _)].
      * split; [done|]. simpl. lia.
      * split; [apply history_inv_move; [done|simpl in *; lia..]|].
        simpl. intros _. exists (input_buffer self).
        rewrite lookup_insert_eq. split; [done|]. apply str_slice_to_prefix.
    + apply history_previous_Ok in Hprev as [[-> _]|(j & h & -> & Hj & _)]; [done|].
      apply key_inv_move; [done|lia..].
  - apply _down_pressed_Ok in Hdown as [(_ & -> & _)|(_ & _ & Hnext)]; [done|].
    pose proof (step_inv _ _ _ (step_next _ _ _ _ Hnext) (key_history _ Hinv)) as Hinv'.
    apply history_next_Ok in Hnext as [[-> _]|(j & h & -> & Hcond & Hj & _)]; [done|].
    apply key_inv_move; [done|lia| |lia].
    pose proof (inv_index _ Hinv') as Hidx. simpl in Hidx.
    pose proof (inv_index _ (key_history _ Hinv)). lia.
  - by apply key_inv_fresh.
  - by apply (key_inv_same self).
Qed.

Lemma key_reachable_inv self : key_reachable self → key_inv self.
Proof.
  revert self. apply (rtc_ind_r (fun self => key_inv self)).
  - apply key_inv_fresh; reflexivity.
  - intros self1 self2 _ Hstep IH. by eapply key_step_inv.
Qed.

(** Under the invariant of the keys the down key finds the way: the
    saved live line matches the search prefix. *)
Lemma key_inv_next_returns fuel self :
  key_inv self →
  ∃ self', history_next (S (Z.to_nat (len (_history self) - _history_index self)) + fuel)
                        self (_history_prefix self) = Some (Ok self').
Proof.
  intros [Hinv Hkey].
  destruct (decide (_history_index self < len (_history self))) as [Hlt|Hge].
  - destruct (Hkey Hlt) as (B & HB & Hpre).
    destruct (history_next_reaches
                (S (Z.to_nat (len (_history self) - _history_index self)) + fuel)
                self (_history_prefix self) (len (_history self)))
      as (j & h & _ & _ & _ & _ & Hnext); [done|lia| | |lia|by eexists].
    + intros i Hi. by apply get_edited_upto_live.
    + exists B. split; [|done]. by apply get_edited_saved.
  - exists self. apply history_next_at_end. lia.
Qed.

Lemma steps_next_down_presses (n : nat) self self' :
  steps self (replicate n (HistoryNext (_history_prefix self))) self' →
  down_presses n self self'.
Proof.
  revert self. induction n as [|n IH]; intros self Hsteps; simpl in Hsteps.
  - inversion Hsteps; subst. constructor.
  - inversion Hsteps as [|? ? self1 ? ? Hstep Hrest]; subst.
    inversion Hstep as [| |fuel ? ? ? Hnext| |]; subst.
    apply (down_presses_S fuel _ _ self1).
    + unfold _down_pressed. by rewrite Hnext.
    + apply IH. by rewrite (history_next_prefix _ _ _ _ Hnext).
Qed.
End Keys.

(** X15. In every state reached with the keys, [execute], [_set_history]
    and typing, the index is in [0, N], the overlay keys are in [0, N], and
    while the index is below N the overlay holds under key N a live line
    that starts with the stored search prefix. *)
Theorem keys_keep_live_line_matching self :
  key_reachable self →
  0 <= _history_index self <= len (_history self)
  ∧ map_Forall (fun k _ => 0 <= k <= len (_history self)) (_history_edits self)
  ∧ (_history_index self < len (_history self) →
     ∃ B, _history_edits self !! len (_history self) = Some B
          ∧ startswith B (_history_prefix self) = true).
Proof.
  intros [[Hindex Hkeys _] Hkey]%key_reachable_inv. done.
Qed.

Lemma keys_keep_live_line_matching_witness :
  0 <= _history_index browsing <= len (_history browsing)
  ∧ map_Forall (fun k _ => 0 <= k <= len (_history browsing)) (_history_edits browsing)
  ∧ (_history_index browsing < len (_history browsing) →
     ∃ B, _history_edits browsing !! len (_history browsing) = Some B
          ∧ startswith B (_history_prefix browsing) = true).
Proof.
  apply (keys_keep_live_line_matching browsing).
  apply (rtc_l _ _ at_live_line); [apply key_set_history|].
  apply (rtc_l _ _ browsing); [|apply rtc_refl].
  apply (key_up at_live_line true 0 browsing false). reflexivity.
Defined.

(** X16. In every state reached with the keys neither key handler
    raises: [_up_pressed] returns, and [_down_pressed] returns for every
    fuel above [N - index].  The [IndexError] of [history_next] needs a
    prefix that the saved live line does not start with, and the down key
    never passes one. *)
Theorem key_handlers_never_raise self :
  key_reachable self →
  (∀ on_prompt_line col,
     ∃ self' ret, _up_pressed self on_prompt_line col = Ok (self', ret))
  ∧ (∀ on_end_line fuel,
       ∃ self' ret,
         _down_pressed (S (Z.to_nat (len (_history self) - _history_index self)) + fuel)
                       self on_end_line = Some (Ok (self', ret))).
Proof.
  intros Hinv%key_reachable_inv. split.
  - intros on_prompt_line col. apply _up_pressed_returns.
    apply (inv_index _ (key_history _ Hinv)).
  - intros [|] fuel; [|by eexists _, _].
    destruct (key_inv_next_returns fuel self Hinv) as [self' Hnext].
    exists self', false. unfold _down_pressed. by rewrite Hnext.
Qed.

Lemma key_handlers_never_raise_witness :
  (∀ on_prompt_line col,
     ∃ self' ret, _up_pressed browsing on_prompt_line col = Ok (self', ret))
  ∧ (∀ on_end_line fuel,
       ∃ self' ret,
         _down_pressed
           (S (Z.to_nat (len (_history browsing) - _history_index browsing)) + fuel)
           browsing on_end_line = Some (Ok (self', ret))).
Proof.
  apply (key_handlers_never_raise browsing).
  apply (rtc_l _ _ at_live_line); [apply key_set_history|].
  apply (rtc_l _ _ browsing); [|apply rtc_refl].
  apply (key_up at_live_line true 0 browsing false). reflexivity.
Defined.

(** X17. From a state reached with the keys in which the index is below
    N, pressing the down key on the last line at most [N - index] times
    leads back to index N, with the saved live line in the input buffer. *)
Theorem down_key_returns_to_live_line self :
  key_reachable self →
  _history_index self < len (_history self) →
  ∃ (n : nat) self' B,
    (0 < n)%nat
    ∧ Z.of_nat n <= len (_history self) - _history_index self
    ∧ down_presses n self self'
    ∧ _history_index self' = len (_history self)
    ∧ _history_edits self !! len (_history self) = Some B
    ∧ input_buffer self' = B.
Proof.
  intros [Hinv Hkey]%key_reachable_inv Hlt.
  destruct (Hkey Hlt) as (B & HB & Hpre).
  pose proof (inv_index _ Hinv) as Hindex.
  destruct (forward_to_live_line
              (Z.to_nat (len (_history self) - _history_index self))
              self (_history_prefix self) B)
    as (n & self' & Hn & Hle & Hsteps & _ & Hend & Hbuf); [lia|lia|done|done|].
  exists n, self', B. split_and!; try done.
  by apply steps_next_down_presses.
Qed.

Lemma down_key_returns_to_live_line_witness :
  ∃ (n : nat) self' B,
    (0 < n)%nat
    ∧ Z.of_nat n <= len (_history browsing) - _history_index browsing
    ∧ down_presses n browsing self'
    ∧ _history_index self' = len (_history browsing)
    ∧ _history_edits browsing !! len (_history browsing) = Some B
    ∧ input_buffer self' = B.
Proof.
  apply (down_key_returns_to_live_line browsing).
  - apply (rtc_l _ _ at_live_line); [apply key_set_history|].
    apply (rtc_l _ _ browsing); [|apply rtc_refl].
    apply (key_up at_live_line true 0 browsing false). reflexivity.
  - simpl. unfold len. simpl. lia.
Defined.

(** X18. Pressed on the prompt line at the live line, or with a
    non-empty search prefix and the cursor away from its end, the up key
    starts a new search from index N: the search prefix becomes the buffer
    up to the cursor column, and the handler returns [False].  Either
    nothing else changes, and the index is N; or the index is below N, the
    buffer shown starts with the new prefix, and the buffer that was
    replaced is saved under key N. *)
Theorem up_key_starts_search self col :
  _history_index self = len (_history self)
  ∨ (_history_prefix self ≠ "" ∧ col ≠ str_len (_history_prefix self)) →
  ∃ self',
    _up_pressed self true col = Ok (self', false)
    ∧ _history_prefix self' = str_slice_to (input_buffer self) col
    ∧ _history self' = _history self
    ∧ ((_history_index self' = len (_history self)
        ∧ _history_edits self' = _history_edits self
        ∧ input_buffer self' = input_buffer self)
       ∨ (0 <= _history_index self' < len (_history self)
          ∧ startswith (input_buffer self') (str_slice_to (input_buffer self) col) = true
          ∧ _history_edits self'
            = <[len (_history self) := input_buffer self]> (_history_edits self))).
Proof.
  intros Hrestart.
  destruct (_up_pressed_returns
              (set_history_index (len (_history self)) self) true col)
    as (self' & ret & Hup); [simpl; lia|].
  assert (_up_pressed self true col = Ok (self', ret)) as Hup'.
  { rewrite <- Hup. unfold _up_pressed. simpl.
    rewrite (bool_decide_eq_true_2 (len (_history self) = len (_history self))) by done.
    simpl.
    destruct Hrestart as [Hend|[Hp Hc]].
    - by rewrite (bool_decide_eq_true_2 _ Hend).
    - rewrite (bool_decide_eq_true_2 _ Hp), (bool_decide_eq_true_2 _ Hc).
      by rewrite orb_true_r. }
  clear Hup. exists self'. pose proof Hup' as Hcases.
  apply _up_pressed_Ok in Hcases
    as [(? & _)|[(_ & -> & _ & Hprev)|(_ & -> & Hne & Hstay & Hprev)]]; [done| |].
  - split; [done|].
    apply history_previous_Ok in Hprev
      as [[-> _]|(j & h & -> & Hj & _ & Hpre & _)]; simpl.
    + split_and!; try done. by left.
    + split_and!; try done. right. split_and!; try done; simpl in Hj; lia.
  - destruct Hrestart as [?|[Hp Hc]]; [done|]. by destruct Hstay.
Qed.

Lemma up_key_starts_search_witness :
  ∃ self',
    _up_pressed at_live_line true 0 = Ok (self', false)
    ∧ _history_prefix self' = str_slice_to (input_buffer at_live_line) 0
    ∧ _history self' = _history at_live_line
    ∧ ((_history_index self' = len (_history at_live_line)
        ∧ _history_edits self' = _history_edits at_live_line
        ∧ input_buffer self' = input_buffer at_live_line)
       ∨ (0 <= _history_index self' < len (_history at_live_line)
          ∧ startswith (input_buffer self')
                       (str_slice_to (input_buffer at_live_line) 0) = true
          ∧ _history_edits self'
            = <[len (_history at_live_line) := input_buffer at_live_line]>
                (_history_edits at_live_line))).
Proof.
  apply (up_key_starts_search at_live_line 0).
  left. reflexivity.
Defined.

(** X19. At the live line, an up key that moved followed by a down key
    restores what was typed: the index is N again and the input buffer is
    the one the up key replaced, whatever the cursor column was. *)
Theorem up_then_down_restores fuel self col self1 :
  _history_index self = len (_history self) →
  _up_pressed self true col = Ok (self1, false) →
  moved self self1 →
  (Z.to_nat (len (_history self) - _history_index self1) <= fuel)%nat →
  ∃ self2,
    _down_pressed fuel self1 true = Some (Ok (self2, false))
    ∧ _history_index self2 = len (_history self)
    ∧ input_buffer self2 = input_buffer self
    ∧ _history self2 = _history self.
Proof.
  intros Hend Hup Hmoved Hfuel.
  apply _up_pressed_Ok in Hup
    as [(? & _)|[(_ & _ & _ & Hprev)|(_ & _ & Hne & _)]]; [done| |done].
  set (p := str_slice_to (input_buffer self) col) in *.
  set (self0 := set_history_prefix p (set_history_index (len (_history self)) self)) in *.
  assert (moved self0 self1) as Hmoved0.
  { unfold moved in *. simpl. by rewrite <- Hend. }
  pose proof (previous_then_next fuel self0 p self1) as Hnext.
  unfold _down_pressed.
  rewrite (history_previous_prefix _ _ _ Hprev).
  change (_history_prefix self0) with p.
  rewrite Hnext; [|simpl; lia|apply str_slice_to_prefix|done|done|by simpl].
  eexists. split; [done|]. by simpl.
Qed.

Lemma up_then_down_restores_witness :
  ∃ self2,
    _down_pressed 1 browsing true = Some (Ok (self2, false))
    ∧ _history_index self2 = len (_history at_live_line)
    ∧ input_buffer self2 = input_buffer at_live_line
    ∧ _history self2 = _history at_live_line.
Proof.
  apply (up_then_down_restores 1 at_live_line 0 browsing).
  - reflexivity.
  - reflexivity.
  - unfold moved. simpl. unfold len. simpl. lia.
  - simpl. unfold len. simpl. lia.
Defined.

(** ** Termination of the forward scan *)

(** X20. In every state, reachable or not, and for every prefix, the loop
    of [history_next] ends: there is a fuel from which on the call has a
    result, the same for every larger fuel.  Each lookup that succeeds is at
    an overlay key or inside the log, and there are finitely many of
    both. *)
Theorem history_next_terminates self prefix :
  ∃ (fuel0 : nat) r, ∀ fuel, history_next (fuel0 + fuel) self prefix = Some r.
Proof.
  destruct (history_next_loop_terminates self prefix (_history_index self)) as [r Hloop].
  exists (S (Z.to_nat (scan_bound self + 1 - _history_index self))).
  eexists. intros fuel. unfold history_next.
  rewrite (history_next_loop_mono _ _ _ _ _ _ Hloop); [done|lia].
Qed.
